(** * Wall detection, mask cache and paint compositor

    A shallow embedding of [backend/improved_sam_visualizer.py] and of the
    request handlers of [backend/app.py].

    Conventions of the embedding:
    - Python [int] is [Z]; a floating point number is the rational [Q] it
      denotes. The thresholds of the classifier and the blend are computed
      exactly; where the order of a list or a truncated integer depends on
      the rounding of a product or a quotient of doubles (the sort key of
      detection, the rescaled bounding box), that operation is [float_mul]
      or [float_div] of the class [External], which fixes no rounding;
    - a NumPy array of shape [(h, w)] or [(h, w, 3)] is a [grid]: its two
      leading dimensions and its cells in row-major order;
    - a statement block guarded by [try/except Exception] is a computation in
      [option]; [None] is a raised exception;
    - OpenCV, the SAM mask generator, MD5 and the Python builtins the code
      calls are the operations of the class [External]. *)

From Stdlib Require Import ZArith QArith Qround Lia Permutation Sorted.
From stdpp Require Import base option list strings gmap fin_maps.

Local Open Scope Z_scope.

(** ** Rational helpers *)

Definition Qlt_bool (a b : Q) : bool := negb (Qle_bool b a).

(** Python's true division [a / b]: raises [ZeroDivisionError] when [b] is 0. *)
Definition py_truediv (a b : Q) : option Q :=
  if Qeq_bool b 0 then None else Some (a / b)%Q.

(** Python's [int(q)] on a float: truncation toward zero. *)
Definition py_int (q : Q) : Z :=
  if Qle_bool 0 q then Qfloor q else Qceiling q.

(** NumPy's [clip(q, lo, hi)]. *)
Definition np_clip (q lo hi : Q) : Q :=
  if Qlt_bool q lo then lo else if Qlt_bool hi q then hi else q.

(** ** Arrays *)

Record grid (A : Type) := Grid {
  g_h : nat;
  g_w : nat;
  g_cells : list A
}.
Arguments Grid {A} _ _ _.
Arguments g_h {A} _.
Arguments g_w {A} _.
Arguments g_cells {A} _.

(** [a.shape[:2]] *)
Definition shape {A} (a : grid A) : nat * nat := (g_h a, g_w a).

Definition grid_map {A B} (f : A -> B) (a : grid A) : grid B :=
  Grid (g_h a) (g_w a) (map f (g_cells a)).

(** [int(mask.sum())] and [np.sum(mask_bool)] of a boolean array. *)
Definition mask_sum (m : grid bool) : Z :=
  Z.of_nat (length (filter (fun b => b = true) (g_cells m))).

(** ** Data model *)

Inductive WallType := main_wall | accent_wall | background | rejected.

#[global] Instance WallType_eq_dec : EqDecision WallType.
Proof. solve_decision. Defined.

Definition BBox : Type := Z * Z * Z * Z.

Record WallSegment := {
  mask : grid bool;
  area : Z;
  bbox : BBox;
  confidence : Q;
  wall_type : WallType
}.

(** ** Wall classifier ([classify_wall_advanced]) *)

Definition edge_margin : Z := 30.

Definition area_ratio (b : BBox) (image_shape : nat * nat) : Q :=
  let '(x, y, w, h) := b in
  let '(img_h, img_w) := image_shape in
  (inject_Z (w * h) / inject_Z (Z.of_nat img_w * Z.of_nat img_h))%Q.

Definition aspect_ratio (b : BBox) : Q :=
  let '(x, y, w, h) := b in
  (inject_Z (Z.max w h) / inject_Z (Z.max (Z.min w h) 1))%Q.

Definition position_x (b : BBox) (image_shape : nat * nat) : Q :=
  let '(x, y, w, h) := b in
  ((inject_Z x + inject_Z w / 2) / inject_Z (Z.of_nat (snd image_shape)))%Q.

Definition position_y (b : BBox) (image_shape : nat * nat) : Q :=
  let '(x, y, w, h) := b in
  ((inject_Z y + inject_Z h / 2) / inject_Z (Z.of_nat (fst image_shape)))%Q.

Definition touches_left (b : BBox) : bool :=
  let '(x, y, w, h) := b in x <=? edge_margin.

Definition touches_right (b : BBox) (image_shape : nat * nat) : bool :=
  let '(x, y, w, h) := b in Z.of_nat (snd image_shape) - edge_margin <=? x + w.

Definition classify_wall_advanced (m : grid bool) (b : BBox)
    (image_shape : nat * nat) : option (WallType * Q) :=
  let '(x, y, w, h) := b in
  let '(img_h, img_w) := image_shape in
  area_ratio ← py_truediv (inject_Z (w * h))
                          (inject_Z (Z.of_nat img_w * Z.of_nat img_h));
  aspect_ratio ← py_truediv (inject_Z (Z.max w h))
                            (inject_Z (Z.max (Z.min w h) 1));
  w_half ← py_truediv (inject_Z w) 2;
  position_x ← py_truediv (inject_Z x + w_half) (inject_Z (Z.of_nat img_w));
  h_half ← py_truediv (inject_Z h) 2;
  position_y ← py_truediv (inject_Z y + h_half) (inject_Z (Z.of_nat img_h));
  let touches_left := x <=? edge_margin in
  let touches_right := Z.of_nat img_w - edge_margin <=? x + w in
  if Qlt_bool (20 # 100) area_ratio && Qlt_bool aspect_ratio (35 # 10)
     && (touches_left || touches_right)
     && Qlt_bool (inject_Z (Z.of_nat img_h) * (4 # 10)) (inject_Z h)
  then Some (main_wall, 95 # 100)
  else if Qlt_bool (12 # 100) area_ratio && Qlt_bool aspect_ratio 4
     && (Qlt_bool (15 # 100) position_x && Qlt_bool position_x (85 # 100))
     && Qlt_bool position_y (75 # 100)
     && Qlt_bool (inject_Z (Z.of_nat img_h) * (3 # 10)) (inject_Z h)
  then Some (accent_wall, 75 # 100)
  else if Qlt_bool area_ratio (8 # 100)
  then Some (rejected, 0%Q)
  else Some (background, 0%Q).

(** ** External collaborators *)

Definition Pixel : Type := Z * Z * Z.
Definition Image : Type := grid Pixel.

(** One element of the list returned by the mask generator: the keys
    ['segmentation'], ['bbox'] and ['stability_score']. *)
Record MaskData := {
  segmentation : grid bool;
  md_bbox : list Z;
  stability_score : Q
}.

(** [stability_score_thresh=0.9] of the [SamAutomaticMaskGenerator] that
    [_load_model] builds: the generator returns no mask below it. *)
Definition stability_score_thresh : Q := 9 # 10.

(** A mask the configured generator can return. *)
Definition generated (mask_data : MaskData) : Prop :=
  (stability_score_thresh <= stability_score mask_data)%Q.

Class External := {
  (** [self.mask_generator.generate(processed_image)]; [None] when it
      raises. The masks of a run of the generator satisfy [generated]. *)
  sam_generate : Image -> option (list MaskData);
  (** The colour conversion, the Gaussian blur and the contrast enhancement
      at the head of [preprocess_image]; [None] when OpenCV raises. *)
  cv_enhance : Image -> option Image;
  (** [cv2.resize(image, (w, h), interpolation=cv2.INTER_LANCZOS4)];
      [None] when it raises. *)
  cv_resize_lanczos : Image -> nat -> nat -> option Image;
  (** [cv2.resize(src, (w, h), interpolation=cv2.INTER_LINEAR)] on a
      single-channel 8-bit array; [None] when it raises. *)
  cv_resize : grid Z -> nat -> nat -> option (grid Z);
  (** [cv2.cvtColor(_, cv2.COLOR_RGB2GRAY)] on one 8-bit RGB pixel. *)
  cv_rgb2gray : Pixel -> Z;
  (** [cv2.imdecode(np.frombuffer(base64.b64decode(s), np.uint8), IMREAD_COLOR)]:
      [None] when decoding raises, [Some None] when the result is [None]. *)
  cv_imdecode : string -> option (option Image);
  (** [hashlib.md5(s.encode()).hexdigest()] *)
  md5_hexdigest : string -> string;
  (** [int(s, 16)]; [None] when it raises [ValueError]. *)
  py_int16 : string -> option Z;
  (** Python's [x * y] on floats: the product as a double. *)
  float_mul : Q -> Q -> Q;
  (** Python's [x / y] on floats, for [y] other than 0: the quotient as a
      double. *)
  float_div : Q -> Q -> Q
}.

Section Visualizer.
Context `{External}.

(** [x / y] on floats: [ZeroDivisionError] when [y] is 0. *)
Definition py_float_truediv (a b : Q) : option Q :=
  if Qeq_bool b 0 then None else Some (float_div a b).

(** ** Geometric normalizer ([preprocess_image]) *)

(** [None] when one of the OpenCV calls raises; the exception is not caught
    in [detect_walls_improved]. *)
Definition preprocess_image (image : Image) (max_size : Z) : option (Image * Q) :=
  image ← cv_enhance image;
  let '(h, w) := shape image in
  if max_size <? Z.max (Z.of_nat h) (Z.of_nat w) then
    let scale_factor :=
      (inject_Z max_size / inject_Z (Z.max (Z.of_nat h) (Z.of_nat w)))%Q in
    let new_w := py_int (inject_Z (Z.of_nat w) * scale_factor) in
    let new_h := py_int (inject_Z (Z.of_nat h) * scale_factor) in
    image ← cv_resize_lanczos image (Z.to_nat new_w) (Z.to_nat new_h);
    Some (image, scale_factor)
  else Some (image, 1%Q).

(** ** Detection ([detect_walls_improved]) *)

(** Body of the loop over the generated masks. *)
Definition detect_step (processed_shape : nat * nat)
    (wall_segments : list WallSegment) (mask_data : MaskData)
    : list WallSegment :=
  let m := segmentation mask_data in
  match md_bbox mask_data with
  | b0 :: b1 :: b2 :: b3 :: _ =>
      let bbox := (b0, b1, b2, b3) in
      let area := mask_sum m in
      let confidence := stability_score mask_data in
      match classify_wall_advanced m bbox processed_shape with
      | Some (wall_type, wall_score) =>
          if Qle_bool (5 # 10) wall_score then
            wall_segments ++
              [ {| mask := m; area := area; bbox := bbox;
                   confidence := (confidence * wall_score)%Q;
                   wall_type := wall_type |} ]
          else wall_segments
      | None => wall_segments
      end
  | _ => wall_segments
  end.

(** The sort key [(3 | 2 | 1, x.area * x.confidence)]; its second component
    is the double that the float product gives. *)
Definition type_priority (t : WallType) : Z :=
  match t with main_wall => 3 | accent_wall => 2 | _ => 1 end.

Definition sort_key (x : WallSegment) : Z * Q :=
  (type_priority (wall_type x), float_mul (inject_Z (area x)) (confidence x)).

(** Python's [<] on the key tuples. *)
Definition key_lt (a b : Z * Q) : bool :=
  (fst a <? fst b) || ((fst a =? fst b) && Qlt_bool (snd a) (snd b)).

(** [list.sort(key=..., reverse=True)]: a stable sort, largest key first;
    elements with equal keys keep their input order. Every stable sort
    returns the same list; the insertion sort stands for Python's. *)
Fixpoint sort_insert (x : WallSegment) (l : list WallSegment)
    : list WallSegment :=
  match l with
  | [] => [x]
  | y :: l' =>
      if key_lt (sort_key x) (sort_key y) then y :: sort_insert x l'
      else x :: y :: l'
  end.

Definition sort_walls (l : list WallSegment) : list WallSegment :=
  foldr sort_insert [] l.

(** [None] when preprocessing raises. The visualizer exists only with its
    mask generator loaded, so the guard on [self.mask_generator] never fires. *)
Definition detect_walls_improved (image : Image)
    : option (list WallSegment * Q) :=
  '(processed_image, scale_factor) ← preprocess_image image 1024;
  match sam_generate processed_image with
  | None => Some ([], scale_factor)
  | Some masks =>
      Some (sort_walls (fold_left (detect_step (shape processed_image)) masks []),
            scale_factor)
  end.

(** ** Mask rescaler ([resize_masks_to_original]) *)

Definition to_uint8_mask (m : grid bool) : grid Z :=
  grid_map (fun b : bool => if b then 255 else 0) m.

Definition threshold_127 (g : grid Z) : grid bool :=
  grid_map (fun v => 127 <? v) g.

(** Body of the loop over the segments. *)
Definition resize_step (original_shape : nat * nat) (scale_factor : Q)
    (resized_segments : list WallSegment) (segment : WallSegment)
    : list WallSegment :=
  let '(original_h, original_w) := original_shape in
  let mask_uint8 := to_uint8_mask (mask segment) in
  let attempt :=
    resized_mask ← cv_resize mask_uint8 original_w original_h;
    let resized_mask_bool := threshold_127 resized_mask in
    let new_area := mask_sum resized_mask_bool in
    let '(x, y, w, h) := bbox segment in
    nx ← py_float_truediv (inject_Z x) scale_factor;
    ny ← py_float_truediv (inject_Z y) scale_factor;
    nw ← py_float_truediv (inject_Z w) scale_factor;
    nh ← py_float_truediv (inject_Z h) scale_factor;
    let new_bbox := (py_int nx, py_int ny, py_int nw, py_int nh) in
    if 0 <? new_area then
      Some (resized_segments ++
              [ {| mask := resized_mask_bool; area := new_area;
                   bbox := new_bbox; confidence := confidence segment;
                   wall_type := wall_type segment |} ])
    else Some resized_segments in
  match attempt with
  | Some l => l
  | None => resized_segments
  end.

Definition resize_masks_to_original (wall_segments : list WallSegment)
    (original_shape : nat * nat) (scale_factor : Q) : list WallSegment :=
  if Qeq_bool scale_factor 1 then wall_segments
  else fold_left (resize_step original_shape scale_factor) wall_segments [].

(** ** Paint compositor ([apply_smart_paint]) *)

(** [cv2.cvtColor] with [COLOR_BGR2RGB] or [COLOR_RGB2BGR]: the first and
    the third channel of every pixel change places. *)
Definition swap_rb (p : Pixel) : Pixel := let '(c0, c1, c2) := p in (c2, c1, c0).

Definition cvt_swap (image : Image) : Image := grid_map swap_rb image.

(** NumPy boolean indexing [a[mask]]: the cells under the mask, row-major. *)
Fixpoint bool_select {A} (m : list bool) (l : list A) : list A :=
  match m, l with
  | b :: m', x :: l' => if b then x :: bool_select m' l' else bool_select m' l'
  | _, _ => []
  end.

(** NumPy boolean assignment [a[mask] = vals]. *)
Fixpoint bool_assign {A} (m : list bool) (l : list A) (vals : list A) : list A :=
  match m, l with
  | b :: m', x :: l' =>
      if b then
        match vals with
        | v :: vals' => v :: bool_assign m' l' vals'
        | [] => x :: bool_assign m' l' []
        end
      else x :: bool_assign m' l' vals
  | _, _ => l
  end.

(** [.astype(np.uint8)] of a float: truncation toward zero; the values the
    compositor produces for opacities in [0, 1] lie in [0, 256), outside of
    it the conversion keeps the low eight bits. *)
Definition to_uint8 (q : Q) : Z := py_int q mod 256.

Definition Qsum (l : list Q) : Q := foldr Qplus 0%Q l.

(** [np.mean] of a non-empty array of 8-bit values. *)
Definition np_mean (l : list Z) : Q :=
  (Qsum (map inject_Z l) / inject_Z (Z.of_nat (length l)))%Q.

Definition brightness_factor (result_image : Image) (wall_segment : WallSegment) : Q :=
  let wall_pixels := bool_select (g_cells (mask wall_segment)) (g_cells result_image) in
  let wall_gray := map cv_rgb2gray wall_pixels in
  let avg_brightness := np_mean wall_gray in
  np_clip (avg_brightness / 128) (7 # 10) (13 # 10).

Definition wall_opacity (t : WallType) (opacity : Q) : Q :=
  match t with
  | accent_wall => (opacity * (9 # 10))%Q
  | background => (opacity * (6 # 10))%Q
  | _ => opacity
  end.

Definition blend_channel (orig : Z) (adjusted : Q) (alpha : Q) : Z :=
  to_uint8 (inject_Z orig * (1 - alpha) + adjusted * alpha)%Q.

Definition blend_pixel (adjusted : Q * Q * Q) (alpha : Q) (p : Pixel) : Pixel :=
  let '(p0, p1, p2) := p in
  let '(a0, a1, a2) := adjusted in
  (blend_channel p0 a0 alpha, blend_channel p1 a1 alpha, blend_channel p2 a2 alpha).

Definition adjust_color (color : Z * Z * Z) (factor : Q) : Q * Q * Q :=
  let '(r, g, b) := color in
  (np_clip (inject_Z r * factor) 0 255,
   np_clip (inject_Z g * factor) 0 255,
   np_clip (inject_Z b * factor) 0 255).

(** Body of the loop over the walls to paint; [result_image] is in RGB. *)
Definition paint_step (color : Z * Z * Z) (opacity : Q)
    (result_image : Image) (wall_segment : WallSegment) : Image :=
  if decide (shape (mask wall_segment) = shape result_image) then
    let mask_bool := g_cells (mask wall_segment) in
    let num_pixels := mask_sum (mask wall_segment) in
    if num_pixels =? 0 then result_image
    else
      let wall_pixels := bool_select mask_bool (g_cells result_image) in
      let adjusted_color :=
        adjust_color color (brightness_factor result_image wall_segment) in
      let alpha := wall_opacity (wall_type wall_segment) opacity in
      Grid (g_h result_image) (g_w result_image)
           (bool_assign mask_bool (g_cells result_image)
                        (map (blend_pixel adjusted_color alpha) wall_pixels))
  else result_image.

Definition apply_smart_paint (image : Image) (wall_segments : list WallSegment)
    (color : Z * Z * Z) (opacity : Q) (paint_main_walls_only : bool) : Image :=
  match wall_segments with
  | [] => image
  | _ =>
      let result_image := cvt_swap image in
      let walls_to_paint :=
        if paint_main_walls_only
        then filter (fun w => wall_type w = main_wall) wall_segments
        else wall_segments in
      match walls_to_paint with
      | [] => cvt_swap result_image
      | _ => cvt_swap (fold_left (paint_step color opacity) walls_to_paint result_image)
      end
  end.

(** ** Mask visualizer ([create_mask_visualization]) *)

Definition colors : list (Z * Z * Z) :=
  [(255, 0, 0); (0, 255, 0); (0, 0, 255); (255, 255, 0); (255, 0, 255)].

Definition flat_color (c : Z * Z * Z) : Q * Q * Q :=
  let '(r, g, b) := c in (inject_Z r, inject_Z g, inject_Z b).

(** Body of the loop over the first five segments; an exception raised here
    is not caught inside the function. *)
Definition visualize_step (acc : option (Image * nat)) (segment : WallSegment)
    : option (Image * nat) :=
  '(vis_image, idx) ← acc;
  color ← colors !! (idx mod length colors)%nat;
  mask_resized ←
    (if decide (shape (mask segment) = shape vis_image) then Some (mask segment)
     else threshold_127 <$>
            cv_resize (to_uint8_mask (mask segment)) (g_w vis_image) (g_h vis_image));
  if decide (shape mask_resized = shape vis_image) then
    let selected := bool_select (g_cells mask_resized) (g_cells vis_image) in
    Some (Grid (g_h vis_image) (g_w vis_image)
               (bool_assign (g_cells mask_resized) (g_cells vis_image)
                  (map (blend_pixel (flat_color color) (5 # 10)) selected)),
          S idx)
  else None.

Definition create_mask_visualization (image : Image)
    (wall_segments : list WallSegment) : option Image :=
  match fold_left visualize_step (take 5 wall_segments)
                  (Some (cvt_swap image, 0%nat)) with
  | Some (vis_image, _) => Some (cvt_swap vis_image)
  | None => None
  end.

End Visualizer.

(** ** Request handlers ([app.py]) *)

(** One element of ['wall_info']. *)
Record WallInfo := {
  wi_id : nat;
  wi_area : Z;
  wi_confidence : Q;
  wi_wall_type : WallType;
  wi_bbox : list Z;
  wi_area_percentage : Q
}.

(** A value of [mask_cache]; the keys ['timestamp'] and ['detection_time']
    hold clock readings and are left out. *)
Record CacheEntry := {
  wall_segments : list WallSegment;
  original_image : Image;
  wall_info : list WallInfo;
  image_size : nat * nat  (* width, height *)
}.

(** The module globals the handlers read and write. *)
Record AppState := {
  visualizer : bool;  (* [visualizer is not None] *)
  mask_cache : gmap string CacheEntry
}.

(** The JSON responses. A handler that catches an exception [e] answers
    with status 500 and a fixed prefix followed by [str(e)]; only the prefix
    is kept. *)
Inductive Response :=
  | DetectOk (walls_detected : nat) (info : list WallInfo)
             (size : nat * nat) (image_hash : string) (from_cache : bool)
  | PaintOk (result_image : Image) (walls_painted : nat)
  | VisualizeOk (visualization : Image) (walls_found : nat)
  | ClearOk (cache_size : nat)
  | Failure (status : Z) (error : string).

(** The JSON body of a paint request, defaults applied. *)
Record PaintData := {
  pd_image_hash : option string;
  pd_wall_ids : list Z;
  pd_color : string;
  pd_opacity : Q;
  pd_mainWallsOnly : bool
}.

(** [s.split(sep)[1]] for a string [s] that contains [sep]. *)
Definition split_second (sep s : string) : string :=
  match String.index 0 sep s with
  | Some i =>
      let start := (i + String.length sep)%nat in
      let rest := String.substring start (String.length s - start) s in
      match String.index 0 sep rest with
      | Some j => String.substring 0 j rest
      | None => rest
      end
  | None => s
  end.

(** [s.lstrip('#')] *)
Fixpoint lstrip_hash (s : string) : string :=
  match s with
  | String c s' => if Ascii.eqb c (Ascii.ascii_of_nat 35) then lstrip_hash s' else s
  | EmptyString => s
  end.

(** Python's [l[i]] for an integer [i]: negative indices count from the
    end; [None] is [IndexError]. *)
Definition py_getitem {A} (l : list A) (i : Z) : option A :=
  if 0 <=? i then l !! Z.to_nat i
  else if - Z.of_nat (length l) <=? i then l !! Z.to_nat (Z.of_nat (length l) + i)
  else None.

Section Handlers.
Context `{External}.

Definition get_image_hash (image_data : string) : string :=
  String.substring 0 16 (md5_hexdigest image_data).

(** The comprehension that builds ['wall_info'], from index [i] on. *)
Fixpoint wall_info_from (i : nat) (image : Image) (segments : list WallSegment)
    : option (list WallInfo) :=
  match segments with
  | [] => Some []
  | segment :: rest =>
      ratio ← py_truediv (inject_Z (area segment))
                         (inject_Z (Z.of_nat (g_h image) * Z.of_nat (g_w image)));
      let '(x, y, w, h) := bbox segment in
      infos ← wall_info_from (S i) image rest;
      Some ({| wi_id := i; wi_area := area segment;
               wi_confidence := confidence segment;
               wi_wall_type := wall_type segment;
               wi_bbox := [x; y; w; h];
               wi_area_percentage := (ratio * 100)%Q |} :: infos)
  end.

(** [mask_cache[image_hash] = entry] *)
Definition cache_store (image_hash : string) (entry : CacheEntry)
    (st : AppState) : AppState :=
  {| visualizer := visualizer st;
     mask_cache := <[image_hash := entry]> (mask_cache st) |}.

(** [mask_cache[image_hash]] guarded by [image_hash in mask_cache] *)
Definition cache_lookup (image_hash : string) (st : AppState) : option CacheEntry :=
  mask_cache st !! image_hash.

(** The text after a ['base64,'] marker, or the whole text without one. *)
Definition clean_image_data (image_data : string) : string :=
  match String.index 0 "base64," image_data with
  | Some _ => split_second "base64," image_data
  | None => image_data
  end.

Definition detect_walls_only (st : AppState) (data : option string)
    : Response * AppState :=
  if negb (visualizer st) then
    (Failure 500 "SAM model not loaded. Check logs for details.", st)
  else
  match data with
  | None => (Failure 400 "No image data provided", st)
  | Some image_data =>
      let image_data_clean := clean_image_data image_data in
      let image_hash := get_image_hash image_data_clean in
      match cache_lookup image_hash st with
      | Some cached_data =>
          (DetectOk (length (wall_info cached_data)) (wall_info cached_data)
                    (image_size cached_data) image_hash true, st)
      | None =>
          match cv_imdecode image_data_clean with
          | None => (Failure 500 "Detection failed", st)
          | Some None => (Failure 400 "Could not decode image", st)
          | Some (Some image) =>
              match detect_walls_improved image with
              | None => (Failure 500 "Detection failed", st)
              | Some ([], scale_factor) =>
                  (DetectOk 0 [] (g_w image, g_h image) image_hash false, st)
              | Some (wall_segments, scale_factor) =>
                  let resized_segments :=
                    resize_masks_to_original wall_segments (shape image) scale_factor in
                  match wall_info_from 0 image resized_segments with
                  | None => (Failure 500 "Detection failed", st)
                  | Some wall_info =>
                      (DetectOk (length wall_info) wall_info
                                (g_w image, g_h image) image_hash false,
                       cache_store image_hash
                         {| wall_segments := resized_segments;
                            original_image := image;
                            wall_info := wall_info;
                            image_size := (g_w image, g_h image) |} st)
                  end
              end
          end
      end
  end.

(** Hex colour to RGB, with the fallback colour of the handler. *)
Definition parse_color (color_hex : string) : Z * Z * Z :=
  let color_hex := lstrip_hash color_hex in
  if (String.length color_hex =? 6)%nat then
    match py_int16 (String.substring 0 2 color_hex),
          py_int16 (String.substring 2 2 color_hex),
          py_int16 (String.substring 4 2 color_hex) with
    | Some r, Some g, Some b => (r, g, b)
    | _, _, _ => (255, 87, 51)
    end
  else (255, 87, 51).

(** [[wall_segments[i] for i in selected_wall_ids if i < len(wall_segments)]] *)
Fixpoint select_walls (wall_segments : list WallSegment) (selected_wall_ids : list Z)
    : option (list WallSegment) :=
  match selected_wall_ids with
  | [] => Some []
  | i :: ids =>
      if i <? Z.of_nat (length wall_segments) then
        w ← py_getitem wall_segments i;
        ws ← select_walls wall_segments ids;
        Some (w :: ws)
      else select_walls wall_segments ids
  end.

(** The "filter walls" block: an empty selection stands for all walls. *)
Definition walls_to_paint (wall_segments : list WallSegment)
    (selected_wall_ids : list Z) : option (list WallSegment) :=
  match selected_wall_ids with
  | [] => Some wall_segments
  | _ => select_walls wall_segments selected_wall_ids
  end.

Definition paint_instant (st : AppState) (data : option PaintData) : Response :=
  if negb (visualizer st) then Failure 500 "SAM model not loaded"
  else
  match data with
  | None => Failure 400 "No data provided"
  | Some d =>
      let cached :=
        match pd_image_hash d with
        | Some image_hash =>
            if decide (image_hash = EmptyString) then None else cache_lookup image_hash st
        | None => None
        end in
      match cached with
      | None => Failure 400 "Image not found in cache. Please detect walls first."
      | Some cached_data =>
          let image := original_image cached_data in
          let wall_segments := wall_segments cached_data in
          let color_rgb := parse_color (pd_color d) in
          match walls_to_paint wall_segments (pd_wall_ids d) with
          | None => Failure 500 "Painting failed"
          | Some [] => Failure 400 "No valid walls to paint"
          | Some walls =>
              PaintOk (apply_smart_paint image walls color_rgb (pd_opacity d)
                                         (pd_mainWallsOnly d))
                      (length walls)
          end
      end
  end.

Definition visualize_masks (st : AppState) (image_hash : option string) : Response :=
  if negb (visualizer st) then Failure 500 "SAM model not loaded"
  else
  let cached :=
    match image_hash with
    | Some h => if decide (h = EmptyString) then None else cache_lookup h st
    | None => None
    end in
  match cached with
  | Some cached_data =>
      match create_mask_visualization (original_image cached_data)
                                      (wall_segments cached_data) with
      | Some vis_image => VisualizeOk vis_image (length (wall_segments cached_data))
      | None => Failure 500 EmptyString
      end
  | None => Failure 400 "Image not found in cache"
  end.

Definition clear_cache (st : AppState) : Response * AppState :=
  let cache_size := size (mask_cache st) in
  (ClearOk cache_size, {| visualizer := visualizer st; mask_cache := ∅ |}).

End Handlers.

(** ** The classification rules as the specification words them *)

Definition main_wall_rule (b : BBox) (image_shape : nat * nat) : Prop :=
  let '(x, y, w, h) := b in
  let '(img_h, img_w) := image_shape in
  (20 # 100 < area_ratio b image_shape)%Q /\
  (aspect_ratio b < 35 # 10)%Q /\
  (touches_left b = true \/ touches_right b image_shape = true) /\
  (inject_Z (Z.of_nat img_h) * (4 # 10) < inject_Z h)%Q.

Definition main_wall_test (b : BBox) (image_shape : nat * nat) : bool :=
  Qlt_bool (20 # 100) (area_ratio b image_shape)
  && Qlt_bool (aspect_ratio b) (35 # 10)
  && (touches_left b || touches_right b image_shape)
  && Qlt_bool (inject_Z (Z.of_nat (fst image_shape)) * (4 # 10))
              (inject_Z (snd b)).

Definition accent_wall_test (b : BBox) (image_shape : nat * nat) : bool :=
  Qlt_bool (12 # 100) (area_ratio b image_shape)
  && Qlt_bool (aspect_ratio b) 4
  && (Qlt_bool (15 # 100) (position_x b image_shape)
      && Qlt_bool (position_x b image_shape) (85 # 100))
  && Qlt_bool (position_y b image_shape) (75 # 100)
  && Qlt_bool (inject_Z (Z.of_nat (fst image_shape)) * (3 # 10))
              (inject_Z (snd b)).

Definition rejected_test (b : BBox) (image_shape : nat * nat) : bool :=
  Qlt_bool (area_ratio b image_shape) (8 # 100).

(** The first rule of the list that matches decides; otherwise the default. *)
Fixpoint first_match {A} (rules : list (bool * A)) (default : A) : A :=
  match rules with
  | [] => default
  | (test, result) :: rules' => if test then result else first_match rules' default
  end.

Definition classifier_rules (b : BBox) (image_shape : nat * nat)
    : list (bool * (WallType * Q)) :=
  [ (main_wall_test b image_shape, (main_wall, 95 # 100));
    (accent_wall_test b image_shape, (accent_wall, 75 # 100));
    (rejected_test b image_shape, (rejected, 0%Q)) ].


(** ** The sort order as the specification words it *)

Section SortSpec.
Context `{External}.

Definition priority (x : WallSegment) : Z := fst (sort_key x).
Definition weight (x : WallSegment) : Q := snd (sort_key x).

(** [a] may stand before [b]: higher type priority, or the same priority
    and at least the same area * confidence (the float product). *)
Definition key_ge (a b : WallSegment) : Prop :=
  priority b < priority a \/
  (priority a = priority b /\ (weight b <= weight a)%Q).

Definition same_key (a b : WallSegment) : bool :=
  (priority a =? priority b) && Qeq_bool (weight a) (weight b).

End SortSpec.

(** ** Retention as the detection loop decides it *)

(** The box the loop body builds from ['bbox'], if it has four entries. *)
Definition proposal_bbox (mask_data : MaskData) : option BBox :=
  match md_bbox mask_data with
  | b0 :: b1 :: b2 :: b3 :: _ => Some (b0, b1, b2, b3)
  | _ => None
  end.

(** The classifier's answer for a proposal, if the loop body reaches it. *)
Definition classification (processed_shape : nat * nat) (mask_data : MaskData)
    : option (WallType * Q) :=
  b ← proposal_bbox mask_data;
  classify_wall_advanced (segmentation mask_data) b processed_shape.

(** Stability score times classification score. *)
Definition combined_confidence (processed_shape : nat * nat)
    (mask_data : MaskData) : option Q :=
  '(_, wall_score) ← classification processed_shape mask_data;
  Some (stability_score mask_data * wall_score)%Q.

(** The proposal is retained: the loop body appends one segment for it. *)
Definition retained (processed_shape : nat * nat) (mask_data : MaskData) : Prop :=
  exists seg, forall acc, detect_step processed_shape acc mask_data = acc ++ [seg].

(** The segment is labelled as a wall to paint. *)
Definition is_wall (seg : WallSegment) : Prop :=
  wall_type seg = main_wall \/ wall_type seg = accent_wall.

(** ** The rescaling of one segment as the specification words it *)

Section RescaleSpec.
Context `{External}.

(** The mask resized to the original resolution and thresholded at 127. *)
Definition resized_mask (original_shape : nat * nat) (segment : WallSegment)
    : option (grid bool) :=
  threshold_127 <$>
    cv_resize (to_uint8_mask (mask segment)) (snd original_shape) (fst original_shape).

(** The box with every coordinate divided by the scale factor (a float
    division) and truncated. *)
Definition scaled_bbox (scale_factor : Q) (b : BBox) : BBox :=
  let '(x, y, w, h) := b in
  (py_int (float_div (inject_Z x) scale_factor),
   py_int (float_div (inject_Z y) scale_factor),
   py_int (float_div (inject_Z w) scale_factor),
   py_int (float_div (inject_Z h) scale_factor)).

(** The rescaled segment, or nothing when the resize raises, the scale
    factor is 0 or no pixel of the mask survives. *)
Definition rescale (original_shape : nat * nat) (scale_factor : Q)
    (segment : WallSegment) : option WallSegment :=
  m ← resized_mask original_shape segment;
  if Qeq_bool scale_factor 0 then None
  else if 0 <? mask_sum m then
    Some {| mask := m; area := mask_sum m;
            bbox := scaled_bbox scale_factor (bbox segment);
            confidence := confidence segment;
            wall_type := wall_type segment |}
  else None.

End RescaleSpec.

(** ** Pixels *)

Definition uint8 (c : Z) : Prop := 0 <= c < 256.

Definition uint8_pixel (p : Pixel) : Prop :=
  let '(c0, c1, c2) := p in uint8 c0 /\ uint8 c1 /\ uint8 c2.

(** An 8-bit image, as [cv2.imdecode] returns it. *)
Definition uint8_image (image : Image) : Prop := Forall uint8_pixel (g_cells image).

(** Every channel of [q] is within 1 of the channel of [p]. *)
Definition within_one (p q : Pixel) : Prop :=
  let '(p0, p1, p2) := p in
  let '(q0, q1, q2) := q in
  Z.abs (q0 - p0) <= 1 /\ Z.abs (q1 - p1) <= 1 /\ Z.abs (q2 - p2) <= 1.

(** [f] applied to the cells under the mask, the others unchanged. *)
Fixpoint masked_map {A} (f : A -> A) (m : list bool) (l : list A) : list A :=
  match m, l with
  | b :: m', x :: l' => (if b then f x else x) :: masked_map f m' l'
  | _, _ => l
  end.

(** ** Stand-ins for the external collaborators on concrete inputs *)

(** Nearest-neighbour resampling, in place of the interpolating resizes. *)
Definition nearest_resize {A} (default : A) (g : grid A) (w h : nat)
    : option (grid A) :=
  if ((g_h g =? 0) || (g_w g =? 0) || (w =? 0) || (h =? 0))%nat then None
  else
    Some (Grid h w
            (flat_map (fun r =>
               map (fun c =>
                      nth ((r * g_h g / h) * g_w g + c * g_w g / w)%nat
                          (g_cells g) default)
                   (seq 0 w))
               (seq 0 h))).

(** The 8-bit fixed-point luminance (0.299 R + 0.587 G + 0.114 B). *)
Definition fixed_point_gray (p : Pixel) : Z :=
  let '(r, g, b) := p in (r * 4899 + g * 9617 + b * 1868 + 8192) / 16384.

Definition hex_digit (c : Ascii.ascii) : option Z :=
  let n := Z.of_nat (Ascii.nat_of_ascii c) in
  if (48 <=? n) && (n <=? 57) then Some (n - 48)
  else if (97 <=? n) && (n <=? 102) then Some (n - 87)
  else if (65 <=? n) && (n <=? 70) then Some (n - 55)
  else None.

Fixpoint hex_value_from (acc : Z) (s : string) : option Z :=
  match s with
  | EmptyString => Some acc
  | String c s' => d ← hex_digit c; hex_value_from (acc * 16 + d) s'
  end.

(** Plain hexadecimal numerals. *)
Definition hex_value (s : string) : option Z :=
  match s with
  | EmptyString => None
  | _ => hex_value_from 0 s
  end.

(** The collaborators of a run in which the mask generator returns [masks]
    and every upload decodes to [image]; the enhancement leaves the pixels,
    the digest is the text itself and the float operations do not round. *)
Definition sample_external (masks : list MaskData) (image : Image) : External :=
  {| sam_generate := fun _ => Some masks;
     cv_enhance := Some;
     cv_resize_lanczos := nearest_resize (0, 0, 0);
     cv_resize := nearest_resize 0;
     cv_rgb2gray := fixed_point_gray;
     cv_imdecode := fun _ => Some (Some image);
     md5_hexdigest := fun s => s;
     py_int16 := hex_value;
     float_mul := Qmult;
     float_div := Qdiv |}.

(** ** Concrete inputs *)

(** A boolean mask of [h] rows and [w] columns whose first [k] columns are set. *)
Definition left_columns_mask (h w k : nat) : grid bool :=
  Grid h w (concat (repeat (repeat true k ++ repeat false (w - k)) h)).

(** A 4 x 4 proposal covering the two left columns, with the stability 0.9. *)
Definition stable_proposal : MaskData :=
  {| segmentation := left_columns_mask 4 4 2;
     md_bbox := [0; 0; 2; 4];
     stability_score := 9 # 10 |}.

(** A main wall over the left column of a 2 x 2 working image, and an accent
    wall whose mask is empty. *)
Definition left_wall : WallSegment :=
  {| mask := left_columns_mask 2 2 1; area := 2; bbox := (0, 0, 1, 2);
     confidence := 855 # 1000; wall_type := main_wall |}.

Definition vanishing_wall : WallSegment :=
  {| mask := left_columns_mask 2 2 0; area := 0; bbox := (1, 0, 1, 2);
     confidence := 675 # 1000; wall_type := accent_wall |}.

(** A one-pixel grey image, its full mask as an accent wall and as a main
    wall. *)
Definition grey_image : Image := Grid 1 1 [(128, 128, 128)].

Definition grey_accent_wall : WallSegment :=
  {| mask := Grid 1 1 [true]; area := 1; bbox := (0, 0, 1, 1);
     confidence := 675 # 1000; wall_type := accent_wall |}.

Definition grey_main_wall : WallSegment :=
  {| mask := Grid 1 1 [true]; area := 1; bbox := (0, 0, 1, 1);
     confidence := 855 # 1000; wall_type := main_wall |}.

(** A server that holds the grey image with its accent wall under the key
    ["grey"]. *)
Definition grey_entry : CacheEntry :=
  {| wall_segments := [grey_accent_wall];
     original_image := grey_image;
     wall_info :=
       [ {| wi_id := 0; wi_area := 1; wi_confidence := 675 # 1000;
            wi_wall_type := accent_wall; wi_bbox := [0; 0; 1; 1];
            wi_area_percentage := 100 |} ];
     image_size := (1%nat, 1%nat) |}.

Definition grey_server : AppState :=
  {| visualizer := true; mask_cache := {[ "grey" := grey_entry ]} |}.

Definition paint_request (ids : list Z) (opacity : Q) (main_only : bool) : PaintData :=
  {| pd_image_hash := Some "grey"; pd_wall_ids := ids; pd_color := "#FF0000";
     pd_opacity := opacity; pd_mainWallsOnly := main_only |}.

(** The collaborators of the runs on the grey image: no proposal. *)
Definition grey_external : External := sample_external [] grey_image.

(** A server with the model loaded and nothing cached. *)
Definition fresh_server : AppState := {| visualizer := true; mask_cache := ∅ |}.

(** A 4 x 4 upload on which the mask generator proposes the stable left
    wall. *)
Definition wall_image : Image := Grid 4 4 (repeat (100, 100, 100) 16).

Definition wall_external : External := sample_external [stable_proposal] wall_image.

(** A proposal in the middle of the 4 x 4 image, one column wide and three
    rows high, and a run in which the generator proposes it before the
    stable left wall. *)
Definition centre_proposal : MaskData :=
  {| segmentation := left_columns_mask 4 4 1;
     md_bbox := [1; 0; 1; 3];
     stability_score := 95 # 100 |}.

Definition two_wall_external : External :=
  sample_external [centre_proposal; stable_proposal] wall_image.

(** * Further definitions *)

(** ** The segment a proposal gives rise to *)

(** The segment the detection loop appends for a proposal, if any. *)
Definition proposal_segment (processed_shape : nat * nat) (mask_data : MaskData)
    : option WallSegment :=
  b ← proposal_bbox mask_data;
  '(t, score) ← classify_wall_advanced (segmentation mask_data) b processed_shape;
  if Qle_bool (5 # 10) score then
    Some {| mask := segmentation mask_data;
            area := mask_sum (segmentation mask_data);
            bbox := b;
            confidence := (stability_score mask_data * score)%Q;
            wall_type := t |}
  else None.

(** Collaborators whose mask generator raises on every image. *)
Definition failing_generator (image : Image) : External :=
  {| sam_generate := fun _ => None;
     cv_enhance := Some;
     cv_resize_lanczos := nearest_resize (0, 0, 0);
     cv_resize := nearest_resize 0;
     cv_rgb2gray := fixed_point_gray;
     cv_imdecode := fun _ => Some (Some image);
     md5_hexdigest := fun s => s;
     py_int16 := hex_value;
     float_mul := Qmult;
     float_div := Qdiv |}.

(** An upload of 2 rows and 4 columns. *)
Definition wide_image : Image := Grid 2 4 (repeat (100, 100, 100) 8).

(** The segment detection builds from the stable proposal. *)
Definition left_detected : WallSegment :=
  {| mask := left_columns_mask 4 4 2; area := 8; bbox := (0, 0, 2, 4);
     confidence := (9 # 10) * (95 # 100); wall_type := main_wall |}.

(** The segment detection builds from the proposal in the middle. *)
Definition centre_detected : WallSegment :=
  {| mask := left_columns_mask 4 4 1; area := 4; bbox := (1, 0, 1, 3);
     confidence := (95 # 100) * (75 # 100); wall_type := accent_wall |}.

(** The box of the two left columns of a 4 x 4 image, and a one-pixel box. *)
Definition left_box : BBox := (0, 0, 2, 4).
Definition tiny_box : BBox := (0, 0, 1, 1).

(** ** Paint compositor *)

(** The segment passes the two guards of the paint loop on an image of the
    given shape: its mask has that shape and at least one pixel. *)
Definition paintable (image_shape : nat * nat) (w : WallSegment) : Prop :=
  shape (mask w) = image_shape /\ mask_sum (mask w) <> 0.

#[global] Instance paintable_dec image_shape w : Decision (paintable image_shape w).
Proof. unfold paintable. apply _. Defined.

(** The list the paint loop runs over. *)
Definition main_filter (main_only : bool) (walls : list WallSegment)
    : list WallSegment :=
  if main_only then filter (fun w => wall_type w = main_wall) walls else walls.

(** The channel [q] lies between the channels [p] and [a], up to one unit:
    the blend is truncated to an integer, and a product of floats that
    stands an ulp below an integer loses that unit. *)
Definition channel_between (p a q : Z) : Prop :=
  Z.min p a - 1 <= q <= Z.max p a + 1.

Definition channels_between (p a q : Pixel) : Prop :=
  let '(p0, p1, p2) := p in
  let '(a0, a1, a2) := a in
  let '(q0, q1, q2) := q in
  channel_between p0 a0 q0 /\ channel_between p1 a1 q1 /\ channel_between p2 a2 q2.

(** The adjusted colour with every channel rounded down. *)
Definition adjusted_floor (adjusted : Q * Q * Q) : Pixel :=
  let '(a0, a1, a2) := adjusted in (Qfloor a0, Qfloor a1, Qfloor a2).

(** The adjusted channel [a] of a requested channel [c]: within 0.7 and 1.3
    times [c], and at most 255. *)
Definition adjusted_within (c : Z) (a : Q) : Prop :=
  ((7 # 10) * inject_Z c <= a)%Q /\ (a <= (13 # 10) * inject_Z c)%Q /\ (a <= 255)%Q.

(** ** Request handlers *)

(** The fields ['sam_loaded'] and ['cached_images'] of [health_check]; the
    other fields describe the machine and the clock. *)
Definition health_check (st : AppState) : bool * nat :=
  (visualizer st, size (mask_cache st)).

(** The summary [info] describes the segment at index [i]. *)
Definition info_describes (i : nat) (seg : WallSegment) (info : WallInfo) : Prop :=
  let '(x, y, w, h) := bbox seg in
  wi_id info = i /\ wi_area info = area seg /\
  wi_confidence info = confidence seg /\
  wi_wall_type info = wall_type seg /\ wi_bbox info = [x; y; w; h].

(** The summaries of an entry and its segments are index-aligned. *)
Definition entry_aligned (e : CacheEntry) : Prop :=
  length (wall_info e) = length (wall_segments e) /\
  forall i seg, wall_segments e !! i = Some seg ->
    exists info, wall_info e !! i = Some info /\ info_describes i seg info.

(** Python's index arithmetic: a negative index counts from the end. *)
Definition py_index (len : nat) (i : Z) : nat :=
  Z.to_nat (if i <? 0 then Z.of_nat len + i else i).

Section Reachable.
Context `{External}.

(** Every segment of the entry is a wall whose area is the pixel count of
    its mask, no accent wall stands before a main wall, and the recorded
    size is the size of the stored image. *)
Definition entry_sound (e : CacheEntry) : Prop :=
  Forall (fun seg => is_wall seg /\ area seg = mask_sum (mask seg)) (wall_segments e) /\
  StronglySorted (fun a b => priority b <= priority a) (wall_segments e) /\
  image_size e = (g_w (original_image e), g_h (original_image e)).

(** The states of the server: it starts with an empty cache, and only the
    detection and the clear handlers change the state. *)
Inductive reachable : AppState -> Prop :=
  | reach_start v : reachable {| visualizer := v; mask_cache := ∅ |}
  | reach_detect st data :
      reachable st -> reachable (snd (detect_walls_only st data))
  | reach_clear st : reachable st -> reachable (snd (clear_cache st)).

End Reachable.

(** The state after the upload of the 4 x 4 image to the fresh server. *)
Definition wall_server : AppState :=
  snd (detect_walls_only (H := wall_external) fresh_server
         (Some "data:image/png;base64,AAAA")).
(** * Properties *)

(** ** Rationals *)

Lemma Qlt_bool_iff a b : Qlt_bool a b = true <-> (a < b)%Q.
Proof.
  unfold Qlt_bool. rewrite negb_true_iff. split.
  - intros Hb. apply Qnot_le_lt. intros Hle.
    apply Qle_bool_iff in Hle. congruence.
  - intros Hlt. destruct (Qle_bool b a) eqn:E; [|reflexivity].
    apply Qle_bool_iff in E. exfalso. exact (Qlt_not_le _ _ Hlt E).
Qed.

Lemma Qlt_bool_false_iff a b : Qlt_bool a b = false <-> (b <= a)%Q.
Proof.
  unfold Qlt_bool. rewrite negb_false_iff. apply Qle_bool_iff.
Qed.

Lemma inject_Z_nonzero z : z <> 0 -> Qeq_bool (inject_Z z) 0 = false.
Proof.
  intros Hz. destruct (Qeq_bool (inject_Z z) 0) eqn:E; [|reflexivity].
  apply Qeq_bool_iff in E. unfold Qeq in E. simpl in E. lia.
Qed.

Lemma py_truediv_nonzero a z :
  z <> 0 -> py_truediv a (inject_Z z) = Some (a / inject_Z z)%Q.
Proof. intros Hz. unfold py_truediv. now rewrite inject_Z_nonzero. Qed.

Lemma py_truediv_zero a : py_truediv a (inject_Z 0) = None.
Proof. reflexivity. Qed.

(** ** Classifier *)

(** On an image of positive size the classifier raises nothing and its
    answer is the first matching rule, [background] with score 0 when none
    matches. *)
Lemma classify_first_match m b (img_h img_w : nat) :
  (0 < img_h)%nat -> (0 < img_w)%nat ->
  classify_wall_advanced m b (img_h, img_w)
  = Some (first_match (classifier_rules b (img_h, img_w)) (background, 0%Q)).
Proof.
  intros Hh Hw. destruct b as [[[x y] w] h].
  unfold classify_wall_advanced.
  rewrite (py_truediv_nonzero _ (Z.of_nat img_w * Z.of_nat img_h)) by nia.
  rewrite (py_truediv_nonzero _ (Z.max (Z.min w h) 1)) by lia.
  change 2%Q with (inject_Z 2).
  rewrite !(py_truediv_nonzero _ 2) by lia.
  cbn [mbind option_bind].
  rewrite (py_truediv_nonzero _ (Z.of_nat img_w)) by lia.
  rewrite (py_truediv_nonzero _ (Z.of_nat img_h)) by lia.
  cbn [mbind option_bind].
  unfold classifier_rules, first_match, main_wall_test, accent_wall_test,
    rejected_test, area_ratio, aspect_ratio, position_x, position_y,
    touches_left, touches_right.
  cbn [fst snd]. change (inject_Z 2) with 2%Q.
  repeat match goal with
         | |- context [if ?c then _ else _] => destruct c
         end; reflexivity.
Qed.

(** On an image without pixels the first division raises. *)
Lemma classify_empty_image m b (img_h img_w : nat) :
  img_h = 0%nat \/ img_w = 0%nat ->
  classify_wall_advanced m b (img_h, img_w) = None.
Proof.
  intros Hz. destruct b as [[[x y] w] h]. unfold classify_wall_advanced.
  replace (Z.of_nat img_w * Z.of_nat img_h) with 0 by nia.
  reflexivity.
Qed.

Lemma main_wall_test_iff b s : main_wall_test b s = true <-> main_wall_rule b s.
Proof.
  destruct b as [[[x y] w] h], s as [img_h img_w].
  unfold main_wall_test, main_wall_rule.
  rewrite !andb_true_iff, orb_true_iff, !Qlt_bool_iff. simpl. tauto.
Qed.

(** C2. On an image of positive size the classifier answers
    [(main_wall, 0.95)] exactly when rule 1 holds: area_ratio > 0.20,
    aspect_ratio < 3.5, the box touches the left or the right edge and
    height > 0.4 * image_height; the rules are tried in their order, the
    first match deciding. A box with area_ratio = 0.21, aspect_ratio = 3.0,
    touching the left edge, of height 0.5 * image_height is a main wall; a
    box with area_ratio = 0.05 is rejected with score 0, whatever its other
    fields. *)
Theorem classify_main_wall_rule m (b : BBox) (img_h img_w : nat) :
  (0 < img_h)%nat -> (0 < img_w)%nat ->
  let s := (img_h, img_w) in
  classify_wall_advanced m b s
    = Some (first_match (classifier_rules b s) (background, 0%Q)) /\
  (classify_wall_advanced m b s = Some (main_wall, 95 # 100)
     <-> main_wall_rule b s) /\
  ((area_ratio b s == 21 # 100)%Q -> (aspect_ratio b == 3)%Q ->
   touches_left b = true ->
   (inject_Z (snd b) == (5 # 10) * inject_Z (Z.of_nat img_h))%Q ->
   classify_wall_advanced m b s = Some (main_wall, 95 # 100)) /\
  ((area_ratio b s == 5 # 100)%Q ->
   classify_wall_advanced m b s = Some (rejected, 0%Q)).
Proof.
  intros Hh Hw s. subst s.
  rewrite (classify_first_match m b img_h img_w Hh Hw).
  split; [reflexivity|]. split; [|split].
  - rewrite <- main_wall_test_iff.
    unfold classifier_rules, first_match.
    destruct (main_wall_test b (img_h, img_w)); [tauto|].
    split; [|discriminate].
    destruct (accent_wall_test _ _); [discriminate|].
    destruct (rejected_test _ _); discriminate.
  - intros Har Hasp Hleft Hhalf.
    assert (Ht : main_wall_test b (img_h, img_w) = true).
    { unfold main_wall_test. rewrite Hleft. cbn [fst orb].
      rewrite !andb_true_iff, !Qlt_bool_iff.
      rewrite Har, Hasp, Hhalf. repeat split.
      rewrite (Qmult_comm (5 # 10)).
      apply Qmult_lt_l; [|reflexivity].
      change 0%Q with (inject_Z 0). rewrite <- Zlt_Qlt. lia. }
    unfold classifier_rules, first_match. now rewrite Ht.
  - intros Har.
    assert (H1 : main_wall_test b (img_h, img_w) = false).
    { unfold main_wall_test.
      replace (Qlt_bool (20 # 100) (area_ratio b (img_h, img_w))) with false;
        [reflexivity|].
      symmetry. apply Qlt_bool_false_iff. rewrite Har. discriminate. }
    assert (H2 : accent_wall_test b (img_h, img_w) = false).
    { unfold accent_wall_test.
      replace (Qlt_bool (12 # 100) (area_ratio b (img_h, img_w))) with false;
        [reflexivity|].
      symmetry. apply Qlt_bool_false_iff. rewrite Har. discriminate. }
    assert (H3 : rejected_test b (img_h, img_w) = true).
    { unfold rejected_test. apply Qlt_bool_iff. rewrite Har. reflexivity. }
    unfold classifier_rules, first_match. now rewrite H1, H2, H3.
Qed.

(** The boundary box of C2 on a 100 x 252 image: 42 x 126 at the left edge. *)
Lemma classify_main_wall_rule_witness :
  classify_wall_advanced (Grid 252 100 []) (0, 0, 42, 126) (252%nat, 100%nat)
    = Some (main_wall, 95 # 100)
  /\ main_wall_rule (0, 0, 42, 126) (252%nat, 100%nat).
Proof.
  pose proof (classify_main_wall_rule (Grid 252 100 []) (0, 0, 42, 126)
                252 100 ltac:(lia) ltac:(lia)) as (_ & Hiff & Hbound & _).
  assert (Hm : classify_wall_advanced (Grid 252 100 []) (0, 0, 42, 126)
                 (252%nat, 100%nat) = Some (main_wall, 95 # 100)).
  { apply Hbound; reflexivity. }
  split; [exact Hm | apply Hiff, Hm].
Defined.

(** ** Sorting *)

Section Sorting.
Context `{External}.

Lemma key_lt_true x y :
  key_lt (sort_key x) (sort_key y) = true -> key_ge y x /\ same_key x y = false.
Proof.
  unfold key_lt, key_ge, same_key, priority, weight.
  rewrite orb_true_iff, andb_true_iff, Z.ltb_lt, Z.eqb_eq, Qlt_bool_iff.
  intros [Hlt | [Heq Hlt]].
  - split; [now left|]. apply andb_false_iff. left. apply Z.eqb_neq. lia.
  - split; [right; split; [congruence | now apply Qlt_le_weak]|].
    apply andb_false_iff. right.
    destruct (Qeq_bool _ _) eqn:E; [|reflexivity].
    apply Qeq_bool_iff in E. rewrite E in Hlt. now apply Qlt_irrefl in Hlt.
Qed.

Lemma key_lt_false x y :
  key_lt (sort_key x) (sort_key y) = false -> key_ge x y.
Proof.
  unfold key_lt, key_ge, priority, weight.
  rewrite orb_false_iff, andb_false_iff, Z.ltb_ge, Z.eqb_neq, Qlt_bool_false_iff.
  intros [Hge [Hne | Hle]].
  - left. lia.
  - destruct (Z.eq_dec (fst (sort_key x)) (fst (sort_key y))) as [E|E].
    + right. now split.
    + left. lia.
Qed.

Lemma key_ge_trans x y z : key_ge x y -> key_ge y z -> key_ge x z.
Proof.
  unfold key_ge. intros [H1 | [H1 H1']] [H2 | [H2 H2']].
  - left. lia.
  - left. lia.
  - left. lia.
  - right. split; [congruence|]. now apply Qle_trans with (weight y).
Qed.

Lemma sort_insert_perm x l : Permutation (x :: l) (sort_insert x l).
Proof.
  induction l as [|y l IH]; simpl; [reflexivity|].
  destruct (key_lt _ _); [|reflexivity].
  rewrite perm_swap. now apply perm_skip.
Qed.

Lemma sort_walls_perm l : Permutation l (sort_walls l).
Proof.
  induction l as [|x l IH]; simpl; [reflexivity|].
  rewrite <- sort_insert_perm. now apply perm_skip.
Qed.

Lemma sort_insert_sorted x l :
  StronglySorted key_ge l -> StronglySorted key_ge (sort_insert x l).
Proof.
  induction 1 as [|y l Hs IH Hy]; simpl.
  - repeat constructor.
  - destruct (key_lt (sort_key x) (sort_key y)) eqn:E.
    + constructor; [exact IH|].
      apply key_lt_true in E as [E _].
      rewrite <- sort_insert_perm. now constructor.
    + apply key_lt_false in E.
      constructor; [now constructor|].
      constructor; [exact E|].
      eapply Forall_impl; [exact Hy|].
      intros z Hz. now apply key_ge_trans with y.
Qed.

Lemma sort_walls_sorted l : StronglySorted key_ge (sort_walls l).
Proof.
  induction l as [|x l IH]; simpl; [constructor|].
  now apply sort_insert_sorted.
Qed.

(** Segments with the same key leave the sort in the order they entered. *)
Lemma sort_insert_stable k x l :
  List.filter (same_key k) (sort_insert x l) = List.filter (same_key k) (x :: l).
Proof.
  induction l as [|y l IH]; [reflexivity|].
  cbn [sort_insert]. destruct (key_lt (sort_key x) (sort_key y)) eqn:E;
    [|reflexivity].
  apply key_lt_true in E as [_ E].
  cbn [List.filter] in *. rewrite IH.
  destruct (same_key k x) eqn:Ex, (same_key k y) eqn:Ey; try reflexivity.
  exfalso. unfold same_key in *.
  apply andb_true_iff in Ex as [Ex1 Ex2], Ey as [Ey1 Ey2].
  apply Z.eqb_eq in Ex1, Ey1. apply Qeq_bool_iff in Ex2, Ey2.
  apply andb_false_iff in E as [E|E].
  - apply Z.eqb_neq in E. congruence.
  - apply Qeq_bool_neq in E. apply E. now rewrite <- Ex2, <- Ey2.
Qed.

Lemma sort_walls_stable k l :
  List.filter (same_key k) (sort_walls l) = List.filter (same_key k) l.
Proof.
  induction l as [|x l IH]; [reflexivity|].
  cbn [sort_walls foldr]. rewrite sort_insert_stable.
  cbn [List.filter]. fold (sort_walls l). now rewrite IH.
Qed.

Lemma StronglySorted_lookup {A} (R : A -> A -> Prop) (l : list A) i j a b :
  StronglySorted R l -> (i < j)%nat ->
  l !! i = Some a -> l !! j = Some b -> R a b.
Proof.
  intros Hs. revert i j. induction Hs as [|x l Hs IH Hx]; intros i j Hij Hi Hj.
  - discriminate.
  - destruct j as [|j]; [lia|]. destruct i as [|i].
    + injection Hi as <-. simpl in Hj.
      rewrite Forall_forall in Hx. apply Hx.
      eapply list_elem_of_lookup_2; eauto.
    + simpl in Hi, Hj. apply (IH i j); [lia|assumption..].
Qed.

(** The sort rearranges its input (nothing is lost or added) so that the
    key decreases along the list, and segments with equal keys keep their
    input order. *)
Lemma sort_walls_order (l : list WallSegment) :
  Permutation l (sort_walls l) /\
  StronglySorted key_ge (sort_walls l) /\
  (forall i j a b, (i < j)%nat ->
     sort_walls l !! i = Some a -> sort_walls l !! j = Some b ->
     (wall_type b = main_wall -> wall_type a = main_wall) /\
     (wall_type b = accent_wall ->
        wall_type a = main_wall \/ wall_type a = accent_wall) /\
     (wall_type a = wall_type b ->
        (float_mul (inject_Z (area b)) (confidence b)
         <= float_mul (inject_Z (area a)) (confidence a))%Q)) /\
  (forall k, List.filter (same_key k) (sort_walls l) = List.filter (same_key k) l).
Proof.
  split; [apply sort_walls_perm|]. split; [apply sort_walls_sorted|].
  split; [|intros k; apply sort_walls_stable].
  intros i j a b Hij Ha Hb.
  pose proof (StronglySorted_lookup key_ge _ i j a b
                (sort_walls_sorted l) Hij Ha Hb) as Hge.
  unfold key_ge, priority, weight, sort_key in Hge. cbn [fst snd] in Hge.
  repeat split.
  - intros Hbm. rewrite Hbm in Hge.
    destruct (wall_type a); cbn in Hge; try reflexivity; lia.
  - intros Hbm. rewrite Hbm in Hge.
    destruct (wall_type a); cbn in Hge; auto; lia.
  - intros Hty. rewrite Hty in Hge. destruct Hge as [Hlt | [_ Hle]]; [lia|exact Hle].
Qed.

End Sorting.

Example sort_walls_sample :
  sort_walls (H := grey_external)
    [grey_accent_wall; left_wall; vanishing_wall; grey_main_wall]
  = [left_wall; grey_main_wall; grey_accent_wall; vanishing_wall].
Proof. vm_compute. reflexivity. Qed.

(** ** Detection *)

(** The only (type, score) pairs the classifier returns. *)
Lemma classify_cases m b s t score :
  classify_wall_advanced m b s = Some (t, score) ->
  (t = main_wall /\ score = 95 # 100) \/
  (t = accent_wall /\ score = 75 # 100) \/
  ((t = rejected \/ t = background) /\ score = 0%Q).
Proof.
  destruct s as [img_h img_w].
  destruct (Nat.eq_dec img_h 0%nat) as [Eh|Eh];
    [rewrite classify_empty_image by auto; discriminate|].
  destruct (Nat.eq_dec img_w 0%nat) as [Ew|Ew];
    [rewrite classify_empty_image by auto; discriminate|].
  rewrite classify_first_match by lia.
  unfold classifier_rules, first_match.
  destruct (main_wall_test _ _); [intros [= <- <-]; auto|].
  destruct (accent_wall_test _ _); [intros [= <- <-]; auto|].
  destruct (rejected_test _ _); intros [= <- <-]; auto.
Qed.

Lemma score_threshold t score :
  (t = main_wall /\ score = 95 # 100) \/
  (t = accent_wall /\ score = 75 # 100) \/
  ((t = rejected \/ t = background) /\ score = 0%Q) ->
  Qle_bool (5 # 10) score = true <-> t = main_wall \/ t = accent_wall.
Proof.
  intros [[-> ->] | [[-> ->] | [[-> | ->] ->]]]; cbn;
    (split; [intros; auto; discriminate | intros [?|?]; auto; discriminate]).
Qed.

(** What one turn of the detection loop does. *)
Lemma detect_step_eq s acc md :
  detect_step s acc md =
  acc ++ match proposal_bbox md with
         | Some b =>
             match classify_wall_advanced (segmentation md) b s with
             | Some (t, score) =>
                 if Qle_bool (5 # 10) score then
                   [ {| mask := segmentation md; area := mask_sum (segmentation md);
                        bbox := b;
                        confidence := (stability_score md * score)%Q;
                        wall_type := t |} ]
                 else []
             | None => []
             end
         | None => []
         end.
Proof.
  unfold detect_step, proposal_bbox.
  destruct (md_bbox md) as [|b0 [|b1 [|b2 [|b3 rest]]]];
    rewrite ?app_nil_r; try reflexivity.
  destruct (classify_wall_advanced _ _ _) as [[t score]|];
    rewrite ?app_nil_r; try reflexivity.
  destruct (Qle_bool _ _); rewrite ?app_nil_r; reflexivity.
Qed.

Lemma retained_iff_score s md :
  retained s md <->
  exists t score, classification s md = Some (t, score) /\ (5 # 10 <= score)%Q.
Proof.
  unfold retained, classification. split.
  - intros [seg Hseg]. specialize (Hseg []). rewrite detect_step_eq in Hseg.
    destruct (proposal_bbox md) as [b|]; [|discriminate].
    cbn [mbind option_bind].
    destruct (classify_wall_advanced _ _ _) as [[t score]|]; [|discriminate].
    destruct (Qle_bool (5 # 10) score) eqn:E; [|discriminate].
    exists t, score. split; [reflexivity|]. now apply Qle_bool_iff.
  - intros (t & score & Hc & Hle).
    destruct (proposal_bbox md) as [b|] eqn:Eb; [|discriminate].
    cbn [mbind option_bind] in Hc.
    eexists. intros acc. rewrite detect_step_eq, Eb, Hc.
    apply Qle_bool_iff in Hle. rewrite Hle. reflexivity.
Qed.

Lemma classification_cases s md t score :
  classification s md = Some (t, score) ->
  (t = main_wall /\ score = 95 # 100) \/
  (t = accent_wall /\ score = 75 # 100) \/
  ((t = rejected \/ t = background) /\ score = 0%Q).
Proof.
  unfold classification. destruct (proposal_bbox md) as [b|]; [|discriminate].
  apply classify_cases.
Qed.

Lemma detect_loop_walls s masks acc :
  Forall is_wall acc -> Forall is_wall (fold_left (detect_step s) masks acc).
Proof.
  revert acc. induction masks as [|md masks IH]; intros acc Hacc; [exact Hacc|].
  cbn [fold_left]. apply IH. rewrite detect_step_eq.
  apply Forall_app. split; [exact Hacc|].
  destruct (proposal_bbox md) as [b|]; [|constructor].
  destruct (classify_wall_advanced _ _ _) as [[t score]|] eqn:Ec; [|constructor].
  destruct (Qle_bool (5 # 10) score) eqn:E; [|constructor].
  apply Forall_cons. split; [|constructor]. unfold is_wall. cbn.
  apply (score_threshold t score (classify_cases _ _ _ _ _ Ec)), E.
Qed.

Lemma detect_walls_improved_walls `{External} image walls scale_factor :
  detect_walls_improved image = Some (walls, scale_factor) ->
  Forall is_wall walls.
Proof.
  unfold detect_walls_improved.
  destruct (preprocess_image _ _) as [[processed sf]|]; [|discriminate]. cbn.
  destruct (sam_generate processed) as [masks|]; intros [= <- <-]; [|constructor].
  rewrite <- sort_walls_perm. apply detect_loop_walls. constructor.
Qed.

(** Detection returns its segments in the sort order. *)
Lemma detect_walls_improved_sorted `{External} image walls scale_factor :
  detect_walls_improved image = Some (walls, scale_factor) ->
  StronglySorted key_ge walls.
Proof.
  unfold detect_walls_improved.
  destruct (preprocess_image _ _) as [[processed sf]|]; [|discriminate]. cbn.
  destruct (sam_generate processed) as [masks|]; intros [= <- <-]; [|constructor].
  apply sort_walls_sorted.
Qed.

(** The loop body appends the segment of the proposal, if it has one. *)
Lemma detect_step_segment s acc md :
  detect_step s acc md = acc ++ option_list (proposal_segment s md).
Proof.
  rewrite detect_step_eq. f_equal. unfold proposal_segment.
  destruct (proposal_bbox md) as [b|]; [|reflexivity]. cbn.
  destruct (classify_wall_advanced _ _ _) as [[t score]|]; [|reflexivity]. cbn.
  now destruct (Qle_bool _ _).
Qed.

(** The fold of the detection loop. *)
Lemma detect_loop_eq s masks acc :
  fold_left (detect_step s) masks acc = acc ++ omap (proposal_segment s) masks.
Proof.
  revert acc. induction masks as [|md masks IH]; intros acc.
  - cbn. now rewrite app_nil_r.
  - cbn [fold_left]. rewrite IH, detect_step_segment, <- app_assoc. f_equal.
    cbn. now destruct (proposal_segment s md).
Qed.

Lemma detect_walls_improved_eq `{External} image processed scale_factor masks :
  preprocess_image image 1024 = Some (processed, scale_factor) ->
  sam_generate processed = Some masks ->
  detect_walls_improved image
  = Some (sort_walls (omap (proposal_segment (shape processed)) masks), scale_factor).
Proof.
  intros Hpre Hgen. unfold detect_walls_improved. rewrite Hpre. cbn.
  now rewrite Hgen, detect_loop_eq.
Qed.

(** The loop body appends [seg] for the proposal exactly when [seg] is the
    segment of the proposal. *)
Lemma detect_step_appends s md seg :
  (forall acc, detect_step s acc md = acc ++ [seg]) <-> proposal_segment s md = Some seg.
Proof.
  split.
  - intros Hstep. specialize (Hstep []). rewrite detect_step_segment in Hstep.
    destruct (proposal_segment s md) as [seg'|]; [|discriminate].
    cbn in Hstep. now injection Hstep as ->.
  - intros Hseg acc. now rewrite detect_step_segment, Hseg.
Qed.

(** The test of the loop is on the classification score alone: a proposal
    is retained exactly when that score is at least 0.5, that is when it is
    classified main_wall or accent_wall; the retained segment stores the
    product of the stability score and the classification score as its
    confidence. A combined confidence of at least 0.5 implies retention,
    and for a stability score of at least 2/3 the two are equivalent. *)
Lemma retained_by_classification_score s md :
  (retained s md <->
     exists t score, classification s md = Some (t, score) /\ (5 # 10 <= score)%Q) /\
  (retained s md <->
     exists t score, classification s md = Some (t, score)
                     /\ (t = main_wall \/ t = accent_wall)) /\
  (forall seg acc, detect_step s acc md = acc ++ [seg] ->
     combined_confidence s md = Some (confidence seg) /\ is_wall seg) /\
  ((exists c, combined_confidence s md = Some c /\ (5 # 10 <= c)%Q) ->
     retained s md) /\
  ((2 # 3 <= stability_score md)%Q -> retained s md ->
     exists c, combined_confidence s md = Some c /\ (5 # 10 <= c)%Q).
Proof.
  split; [apply retained_iff_score|].
  split; [|split; [|split]].
  - rewrite retained_iff_score. split; intros (t & score & Hc & Hs);
      exists t, score; (split; [exact Hc|]);
      pose proof (score_threshold t score (classification_cases _ _ _ _ Hc)) as Hth.
    + apply Hth. now apply Qle_bool_iff.
    + apply Qle_bool_iff. now apply Hth.
  - intros seg acc Hstep. rewrite detect_step_eq in Hstep.
    apply app_inv_head in Hstep.
    unfold combined_confidence, classification.
    destruct (proposal_bbox md) as [b|]; [|discriminate].
    cbn [mbind option_bind].
    destruct (classify_wall_advanced _ _ _) as [[t score]|] eqn:Ec; [|discriminate].
    destruct (Qle_bool (5 # 10) score) eqn:E; [|discriminate].
    injection Hstep as <-. cbn. split; [reflexivity|].
    apply (score_threshold t score (classify_cases _ _ _ _ _ Ec)), E.
  - intros (c & Hc & Hle). apply retained_iff_score.
    unfold combined_confidence in Hc.
    destruct (classification s md) as [[t score]|] eqn:Ecl; [|discriminate].
    cbn in Hc. injection Hc as <-.
    exists t, score. split; [reflexivity|].
    destruct (classification_cases _ _ _ _ Ecl)
      as [[_ ->] | [[_ ->] | [_ ->]]]; try discriminate.
    exfalso. rewrite Qmult_0_r in Hle. now apply Hle.
  - intros Hst Hret. apply retained_iff_score in Hret as (t & score & Hc & Hs).
    unfold combined_confidence. rewrite Hc. cbn.
    eexists. split; [reflexivity|].
    destruct (classification_cases _ _ _ _ Hc)
      as [[_ ->] | [[_ ->] | [_ ->]]].
    + apply Qle_trans with ((2 # 3) * (95 # 100))%Q; [discriminate|].
      apply Qmult_le_compat_r; [exact Hst | discriminate].
    + apply Qle_trans with ((2 # 3) * (75 # 100))%Q; [discriminate|].
      apply Qmult_le_compat_r; [exact Hst | discriminate].
    + exfalso. now apply Hs.
Qed.

Lemma generated_two_thirds md : generated md -> (2 # 3 <= stability_score md)%Q.
Proof.
  unfold generated, stability_score_thresh. intros Hg.
  apply Qle_trans with (9 # 10); [discriminate | exact Hg].
Qed.

(** C1. The mask generator is built with [stability_score_thresh=0.9], so
    every proposal of a run has a stability score of at least 0.9. For
    every such proposal of a detection, the loop retains it (appends one
    WallSegment for it) exactly when its combined confidence, stability
    score times classification score, is at least 0.5. The segments
    detection returns are those the loop retained, and each of them is a
    main_wall or an accent_wall with a confidence of at least 0.5. *)
Theorem detection_retains_by_combined_confidence `{External}
    image processed scale_factor masks walls sf :
  preprocess_image image 1024 = Some (processed, scale_factor) ->
  sam_generate processed = Some masks ->
  Forall generated masks ->
  detect_walls_improved image = Some (walls, sf) ->
  (forall md, md ∈ masks ->
     (retained (shape processed) md <->
      exists c, combined_confidence (shape processed) md = Some c
                /\ (5 # 10 <= c)%Q)) /\
  (forall seg, seg ∈ walls <->
     exists md, md ∈ masks /\
       forall acc, detect_step (shape processed) acc md = acc ++ [seg]) /\
  (forall seg, seg ∈ walls -> is_wall seg /\ (5 # 10 <= confidence seg)%Q).
Proof.
  intros Hpre Hgen Hall Hdet.
  rewrite (detect_walls_improved_eq _ _ _ _ Hpre Hgen) in Hdet.
  injection Hdet as <- <-.
  assert (Hmem : forall seg,
            seg ∈ sort_walls (omap (proposal_segment (shape processed)) masks) <->
            exists md, md ∈ masks /\
              forall acc, detect_step (shape processed) acc md = acc ++ [seg]).
  { intros seg. rewrite <- sort_walls_perm, list_elem_of_omap.
    split; intros (md & Hmd & Hseg); exists md; (split; [exact Hmd|]);
      now apply detect_step_appends. }
  rewrite Forall_forall in Hall.
  split; [|split; [exact Hmem|]].
  - intros md Hmd.
    destruct (retained_by_classification_score (shape processed) md)
      as (_ & _ & _ & Hback & Hforth).
    split; [|exact Hback].
    apply Hforth, generated_two_thirds, Hall, Hmd.
  - intros seg Hseg. apply Hmem in Hseg as (md & Hmd & Hstep).
    destruct (retained_by_classification_score (shape processed) md)
      as (_ & _ & Hconf & _ & Hforth).
    destruct (Hconf seg [] (Hstep [])) as [Hc Hwall].
    split; [exact Hwall|].
    destruct Hforth as (c & Hc' & Hle).
    + apply generated_two_thirds, Hall, Hmd.
    + now exists seg.
    + rewrite Hc in Hc'. now injection Hc' as ->.
Qed.

(** On the 4 x 4 upload the generator proposes the left wall with the
    stability 0.9; detection returns it as a main wall with the confidence
    0.9 * 0.95. *)
Lemma detection_retains_by_combined_confidence_witness :
  Forall generated [stable_proposal] /\
  is_wall left_detected /\ (5 # 10 <= confidence left_detected)%Q.
Proof.
  assert (Hall : Forall generated [stable_proposal]).
  { repeat constructor. unfold generated. discriminate. }
  split; [exact Hall|].
  destruct (detection_retains_by_combined_confidence (H := wall_external)
              wall_image wall_image 1 [stable_proposal] [left_detected] 1)
    as (_ & _ & Hwalls).
  - vm_compute. reflexivity.
  - reflexivity.
  - exact Hall.
  - vm_compute. reflexivity.
  - apply Hwalls. apply list_elem_of_here.
Defined.

(** C5. Detection returns the segments its loop retained, sorted by the
    key (type priority: main_wall 3, accent_wall 2, every other type 1;
    then area * confidence, the float product), both components
    descending: the list is a rearrangement of the retained segments
    (nothing is lost or added), a main_wall is never preceded by another
    type, an accent_wall only by main or accent walls, segments of one type
    stand by descending area * confidence, and segments with equal keys
    keep the order in which the generator proposed them. The list is a
    function of the retained segments. *)
Theorem detection_sorted_by_priority `{External}
    image processed scale_factor masks walls sf :
  preprocess_image image 1024 = Some (processed, scale_factor) ->
  sam_generate processed = Some masks ->
  detect_walls_improved image = Some (walls, sf) ->
  let kept := fold_left (detect_step (shape processed)) masks [] in
  walls = sort_walls kept /\
  Permutation kept walls /\
  StronglySorted key_ge walls /\
  (forall i j a b, (i < j)%nat -> walls !! i = Some a -> walls !! j = Some b ->
     (wall_type b = main_wall -> wall_type a = main_wall) /\
     (wall_type b = accent_wall ->
        wall_type a = main_wall \/ wall_type a = accent_wall) /\
     (wall_type a = wall_type b ->
        (float_mul (inject_Z (area b)) (confidence b)
         <= float_mul (inject_Z (area a)) (confidence a))%Q)) /\
  (forall k, List.filter (same_key k) walls = List.filter (same_key k) kept).
Proof.
  intros Hpre Hgen Hdet kept.
  assert (Hwalls : walls = sort_walls kept).
  { unfold detect_walls_improved in Hdet. rewrite Hpre in Hdet. cbn in Hdet.
    rewrite Hgen in Hdet. now injection Hdet as <- <-. }
  split; [exact Hwalls|]. rewrite Hwalls. apply sort_walls_order.
Qed.

(** On the 4 x 4 upload the generator proposes the accent wall in the
    middle before the main wall at the left edge; detection returns the
    main wall first. *)
Lemma detection_sorted_by_priority_witness :
  detect_walls_improved (H := two_wall_external) wall_image
    = Some ([left_detected; centre_detected], 1%Q) /\
  Permutation [centre_detected; left_detected] [left_detected; centre_detected].
Proof.
  assert (Hdet : detect_walls_improved (H := two_wall_external) wall_image
                 = Some ([left_detected; centre_detected], 1%Q)).
  { vm_compute. reflexivity. }
  split; [exact Hdet|].
  destruct (detection_sorted_by_priority (H := two_wall_external)
              wall_image wall_image 1 [centre_proposal; stable_proposal]
              [left_detected; centre_detected] 1) as (_ & Hperm & _).
  - vm_compute. reflexivity.
  - reflexivity.
  - exact Hdet.
  - exact Hperm.
Defined.

(** ** Mask rescaler *)

Section Rescaler.
Context `{External}.

(** One turn of the loop appends the rescaled segment, if there is one. *)
Lemma resize_step_eq original_shape scale_factor acc segment :
  resize_step original_shape scale_factor acc segment
  = acc ++ option_list (rescale original_shape scale_factor segment).
Proof.
  destruct original_shape as [original_h original_w].
  unfold resize_step, rescale, resized_mask, scaled_bbox, py_float_truediv.
  cbn [fst snd].
  destruct (cv_resize _ _ _) as [resized|]; cbn; [|now rewrite app_nil_r].
  destruct (bbox segment) as [[[x y] w] h].
  destruct (Qeq_bool scale_factor 0); cbn; [now rewrite app_nil_r|].
  destruct (0 <? mask_sum (threshold_127 resized)); cbn;
    [reflexivity | now rewrite app_nil_r].
Qed.

Lemma resize_loop_eq original_shape scale_factor segments acc :
  fold_left (resize_step original_shape scale_factor) segments acc
  = acc ++ omap (rescale original_shape scale_factor) segments.
Proof.
  revert acc. induction segments as [|segment segments IH]; intros acc.
  - cbn. now rewrite app_nil_r.
  - cbn [fold_left]. rewrite IH, resize_step_eq, <- app_assoc. f_equal.
    cbn. now destruct (rescale _ _ _).
Qed.

Lemma omap_sublist {A B} (f : A -> option B) (l : list A) :
  exists kept, kept `sublist_of` l /\ Forall2 (fun a b => f a = Some b) kept (omap f l).
Proof.
  induction l as [|a l (kept & Hsub & Hall)]; cbn.
  - exists []. split; constructor.
  - destruct (f a) as [b|] eqn:E.
    + exists (a :: kept). split; [now constructor | now constructor].
    + exists kept. split; [now constructor | exact Hall].
Qed.

Lemma rescale_Some original_shape scale_factor segment out :
  rescale original_shape scale_factor segment = Some out ->
  resized_mask original_shape segment = Some (mask out) /\
  area out = mask_sum (mask out) /\ 0 < area out /\
  bbox out = scaled_bbox scale_factor (bbox segment) /\
  confidence out = confidence segment /\ wall_type out = wall_type segment.
Proof.
  unfold rescale. destruct (resized_mask _ _) as [m|]; [|discriminate]. cbn.
  destruct (Qeq_bool scale_factor 0); [discriminate|].
  destruct (0 <? mask_sum m) eqn:E; [|discriminate].
  intros [= <-]. cbn. apply Z.ltb_lt in E. repeat split; auto.
Qed.

Lemma rescale_empty original_shape scale_factor segment m :
  resized_mask original_shape segment = Some m -> mask_sum m = 0 ->
  rescale original_shape scale_factor segment = None.
Proof.
  intros Hm Hz. unfold rescale. rewrite Hm. cbn. rewrite Hz.
  now destruct (Qeq_bool scale_factor 0).
Qed.

(** C6. For a scale factor other than 1.0 the rescaler returns, in input
    order and without repetition, the rescaled images of a subsequence of
    its input: the mask of an output segment is the input mask resized to
    the original resolution and thresholded at 127, its area is the pixel
    count of that mask, its box is the input box with every coordinate
    divided by the scale factor (Python's float division) and truncated
    to an integer, its confidence and its type are those of the input
    segment; a segment whose resized mask has no pixel set has no image in
    the output. *)
Theorem resize_masks_subsequence (segments : list WallSegment)
    (original_shape : nat * nat) (scale_factor : Q) :
  ~ (scale_factor == 1)%Q ->
  let out := resize_masks_to_original segments original_shape scale_factor in
  out = omap (rescale original_shape scale_factor) segments /\
  (exists kept, kept `sublist_of` segments /\
     Forall2 (fun src res =>
                resized_mask original_shape src = Some (mask res) /\
                area res = mask_sum (mask res) /\ 0 < area res /\
                bbox res = scaled_bbox scale_factor (bbox src) /\
                confidence res = confidence src /\
                wall_type res = wall_type src) kept out) /\
  (forall src m, resized_mask original_shape src = Some m -> mask_sum m = 0 ->
     rescale original_shape scale_factor src = None) /\
  (length out <= length segments)%nat.
Proof.
  intros Hsf out.
  assert (Hout : out = omap (rescale original_shape scale_factor) segments).
  { subst out. unfold resize_masks_to_original.
    destruct (Qeq_bool scale_factor 1) eqn:E;
      [apply Qeq_bool_iff in E; contradiction|].
    now rewrite resize_loop_eq. }
  split; [exact Hout|]. rewrite Hout. split; [|split].
  - destruct (omap_sublist (rescale original_shape scale_factor) segments)
      as (kept & Hsub & Hall).
    exists kept. split; [exact Hsub|].
    eapply Forall2_impl; [exact Hall|].
    intros src res Hres. now apply rescale_Some with (scale_factor := scale_factor).
  - intros src m. apply rescale_empty.
  - destruct (omap_sublist (rescale original_shape scale_factor) segments)
      as (kept & Hsub & Hall).
    rewrite <- (Forall2_length _ _ _ Hall). now apply sublist_length.
Qed.

(** With the scale factor 1.0 the input list is returned as it is. *)
Lemma resize_masks_identity segments original_shape scale_factor :
  (scale_factor == 1)%Q ->
  resize_masks_to_original segments original_shape scale_factor = segments.
Proof.
  intros Hsf. unfold resize_masks_to_original.
  apply Qeq_bool_iff in Hsf. now rewrite Hsf.
Qed.

End Rescaler.

(** Rescaling the two sample walls from 2 x 2 to 4 x 4 keeps the first and
    drops the second. *)
Lemma resize_masks_subsequence_witness :
  ~ (1 # 2 == 1)%Q /\
  resize_masks_to_original (H := sample_external [] (Grid 0 0 []))
    [left_wall; vanishing_wall] (4%nat, 4%nat) (1 # 2)
  = [ {| mask := left_columns_mask 4 4 2; area := 8; bbox := (0, 0, 2, 4);
         confidence := 855 # 1000; wall_type := main_wall |} ].
Proof.
  assert (Hsf : ~ (1 # 2 == 1)%Q) by discriminate.
  split; [exact Hsf|].
  destruct (resize_masks_subsequence (H := sample_external [] (Grid 0 0 []))
              [left_wall; vanishing_wall] (4%nat, 4%nat) (1 # 2) Hsf)
    as (Hout & _).
  rewrite Hout. vm_compute. reflexivity.
Defined.

(** ** Paint compositor *)

Lemma swap_rb_involutive p : swap_rb (swap_rb p) = p.
Proof. now destruct p as [[c0 c1] c2]. Qed.

Lemma cvt_swap_involutive image : cvt_swap (cvt_swap image) = image.
Proof.
  destruct image as [h w cells]. unfold cvt_swap, grid_map. cbn. f_equal.
  rewrite map_map. rewrite <- (map_id cells) at 2.
  apply map_ext. intros p. apply swap_rb_involutive.
Qed.

Lemma cvt_swap_uint8 image : uint8_image image -> uint8_image (cvt_swap image).
Proof.
  unfold uint8_image, cvt_swap, grid_map. cbn. intros Himg.
  apply Forall_fmap. eapply Forall_impl; [exact Himg|].
  intros [[c0 c1] c2]. cbn. tauto.
Qed.

Lemma bool_assign_select {A} (f : A -> A) m (l : list A) :
  bool_assign m l (map f (bool_select m l)) = masked_map f m l.
Proof.
  revert l. induction m as [|b m IH]; intros [|x l]; cbn; try reflexivity.
  destruct b; cbn; now rewrite IH.
Qed.

Lemma masked_map_id {A} (f : A -> A) m (l : list A) :
  Forall (fun x => f x = x) l -> masked_map f m l = l.
Proof.
  intros Hl. revert m. induction Hl as [|x l Hx Hl IH]; intros [|b m]; cbn;
    try reflexivity.
  rewrite IH. now destruct b; rewrite ?Hx.
Qed.

Lemma masked_map_lookup {A} (f : A -> A) m (l : list A) i p :
  m !! i = Some true -> l !! i = Some p -> masked_map f m l !! i = Some (f p).
Proof.
  revert l i. induction m as [|b m IH]; intros [|x l] [|i] Hm Hl;
    try discriminate; cbn in *.
  - now injection Hm as ->; injection Hl as ->.
  - now apply IH.
Qed.

Lemma masked_map_lookup_false {A} (f : A -> A) m (l : list A) i :
  m !! i = Some false -> masked_map f m l !! i = l !! i.
Proof.
  revert l i. induction m as [|b m IH]; intros [|x l] [|i] Hm;
    try discriminate; try reflexivity; cbn in *.
  - now injection Hm as ->.
  - now apply IH.
Qed.

Lemma mask_sum_pos (m : grid bool) i : g_cells m !! i = Some true -> 0 < mask_sum m.
Proof.
  intros Hi. unfold mask_sum.
  assert (Hin : true ∈ filter (fun b : bool => b = true) (g_cells m)).
  { apply list_elem_of_filter. split; [reflexivity|].
    eapply list_elem_of_lookup_2; eauto. }
  destruct (filter _ _); [inversion Hin | cbn; lia].
Qed.

#[local] Instance py_int_proper : Proper (Qeq ==> eq) py_int.
Proof.
  intros a b Hab. unfold py_int.
  rewrite (Qfloor_comp _ _ Hab), (Qceiling_comp _ _ Hab).
  destruct (Qle_bool 0 a) eqn:Ea, (Qle_bool 0 b) eqn:Eb; try reflexivity.
  - apply Qle_bool_iff in Ea. rewrite Hab in Ea. apply Qle_bool_iff in Ea. congruence.
  - apply Qle_bool_iff in Eb. rewrite <- Hab in Eb. apply Qle_bool_iff in Eb. congruence.
Qed.

Lemma py_int_inject_Z z : py_int (inject_Z z) = z.
Proof.
  unfold py_int. rewrite Qfloor_Z, Qceiling_Z. now destruct (Qle_bool _ _).
Qed.

Lemma to_uint8_exact (q : Q) (c : Z) :
  (q == inject_Z c)%Q -> uint8 c -> to_uint8 q = c.
Proof.
  intros Hq Hc. unfold to_uint8. rewrite Hq, py_int_inject_Z.
  apply Z.mod_small. exact Hc.
Qed.

(** With the opacity 0 the blend gives back the original channel. *)
Lemma blend_channel_transparent orig adjusted alpha :
  (alpha == 0)%Q -> uint8 orig -> blend_channel orig adjusted alpha = orig.
Proof.
  intros Ha Ho. unfold blend_channel. apply to_uint8_exact; [|exact Ho].
  rewrite Ha. ring.
Qed.

(** With the opacity 1 the blend gives the adjusted colour. *)
Lemma blend_channel_opaque orig adjusted alpha c :
  (alpha == 1)%Q -> (adjusted == inject_Z c)%Q -> uint8 c ->
  blend_channel orig adjusted alpha = c.
Proof.
  intros Ha Hadj Hc. unfold blend_channel. apply to_uint8_exact; [|exact Hc].
  rewrite Ha, Hadj. ring.
Qed.

Lemma wall_opacity_zero t : (wall_opacity t 0 == 0)%Q.
Proof. destruct t; reflexivity. Qed.

Lemma np_clip_inside q lo hi : (lo <= q)%Q -> (q <= hi)%Q -> np_clip q lo hi = q.
Proof.
  intros Hlo Hhi. unfold np_clip.
  apply Qlt_bool_false_iff in Hlo, Hhi. now rewrite Hlo, Hhi.
Qed.

Section Compositor.
Context `{External}.

(** A segment of the right shape with a pixel under its mask is painted by
    blending every pixel under the mask; any other segment is skipped. *)
Lemma paint_step_eq color opacity result_image wall_segment :
  shape (mask wall_segment) = shape result_image ->
  0 < mask_sum (mask wall_segment) ->
  paint_step color opacity result_image wall_segment
  = Grid (g_h result_image) (g_w result_image)
      (masked_map
         (blend_pixel
            (adjust_color color (brightness_factor result_image wall_segment))
            (wall_opacity (wall_type wall_segment) opacity))
         (g_cells (mask wall_segment)) (g_cells result_image)).
Proof.
  intros Hshape Hpos. unfold paint_step.
  destruct (decide _) as [_|Hne]; [|contradiction].
  destruct (mask_sum (mask wall_segment) =? 0) eqn:E;
    [apply Z.eqb_eq in E; lia|].
  now rewrite bool_assign_select.
Qed.

Lemma blend_pixel_transparent adjusted alpha p :
  (alpha == 0)%Q -> uint8_pixel p -> blend_pixel adjusted alpha p = p.
Proof.
  destruct p as [[p0 p1] p2], adjusted as [[a0 a1] a2].
  intros Ha (H0 & H1 & H2). cbn.
  now rewrite !blend_channel_transparent.
Qed.

Lemma paint_step_transparent color result_image wall_segment :
  uint8_image result_image ->
  paint_step color 0 result_image wall_segment = result_image.
Proof.
  intros Himg. unfold paint_step.
  destruct (decide _) as [_|_]; [|reflexivity].
  destruct (_ =? 0); [reflexivity|].
  rewrite bool_assign_select, masked_map_id; [now destruct result_image|].
  eapply Forall_impl; [exact Himg|].
  intros p Hp. apply blend_pixel_transparent; [apply wall_opacity_zero | exact Hp].
Qed.

Lemma paint_loop_transparent color walls result_image :
  uint8_image result_image ->
  fold_left (paint_step color 0) walls result_image = result_image.
Proof.
  intros Himg. induction walls as [|w walls IH]; [reflexivity|].
  cbn [fold_left]. now rewrite paint_step_transparent.
Qed.

(** With the opacity 0 the compositor returns the image as it received it. *)
Lemma apply_smart_paint_transparent image walls color main_only :
  uint8_image image -> apply_smart_paint image walls color 0 main_only = image.
Proof.
  intros Himg. unfold apply_smart_paint.
  destruct walls as [|w walls]; [reflexivity|].
  cbv zeta.
  match goal with
  | |- match ?selected with _ => _ end = _ => destruct selected
  end.
  all: rewrite ?paint_loop_transparent by (now apply cvt_swap_uint8).
  all: apply cvt_swap_involutive.
Qed.

Lemma adjust_color_neutral color factor :
  (factor == 1)%Q -> uint8_pixel color ->
  let '(a0, a1, a2) := adjust_color color factor in
  let '(r, g, b) := color in
  (a0 == inject_Z r /\ a1 == inject_Z g /\ a2 == inject_Z b)%Q.
Proof.
  destruct color as [[r g] b]. intros Hf (Hr & Hg & Hb). cbn.
  assert (Hin : forall c, uint8 c ->
            (np_clip (inject_Z c * factor) 0 255 == inject_Z c)%Q).
  { intros c [Hc0 Hc1].
    assert (Hq : (inject_Z c * factor == inject_Z c)%Q) by (rewrite Hf; ring).
    rewrite np_clip_inside; [exact Hq|..]; rewrite Hq.
    - change 0%Q with (inject_Z 0). rewrite <- Zle_Qle. lia.
    - change 255%Q with (inject_Z 255). rewrite <- Zle_Qle. lia. }
  auto.
Qed.

(** A single main wall passes the "main walls only" filter. *)
Lemma apply_smart_paint_single image wall_segment color opacity main_only :
  wall_type wall_segment = main_wall ->
  apply_smart_paint image [wall_segment] color opacity main_only
  = cvt_swap (paint_step color opacity (cvt_swap image) wall_segment).
Proof.
  intros Hty. unfold apply_smart_paint. cbv zeta.
  destruct main_only; [|reflexivity].
  rewrite filter_cons. destruct (decide _); [|contradiction]. reflexivity.
Qed.

(** Painting a main wall at the opacity 1 under a brightness factor of 1.0
    writes the colour itself. *)
Lemma paint_step_opaque result_image wall_segment color i p :
  wall_type wall_segment = main_wall ->
  shape (mask wall_segment) = shape result_image ->
  uint8_pixel color ->
  (brightness_factor result_image wall_segment == 1)%Q ->
  g_cells (mask wall_segment) !! i = Some true ->
  g_cells result_image !! i = Some p ->
  g_cells (paint_step color 1 result_image wall_segment) !! i = Some color.
Proof.
  intros Hty Hshape Hcolor Hbf Hm Hp.
  rewrite paint_step_eq by eauto using mask_sum_pos.
  cbn [g_cells]. rewrite (masked_map_lookup _ _ _ _ _ Hm Hp). f_equal.
  rewrite Hty. cbn [wall_opacity].
  pose proof (adjust_color_neutral color _ Hbf Hcolor) as Hadj.
  destruct (adjust_color _ _) as [[a0 a1] a2].
  destruct color as [[r g] b], p as [[p0 p1] p2].
  destruct Hadj as (H0 & H1 & H2), Hcolor as (Hr & Hg & Hb). cbn.
  now rewrite (blend_channel_opaque p0 a0 1 r), (blend_channel_opaque p1 a1 1 g),
    (blend_channel_opaque p2 a2 1 b).
Qed.

Lemma cvt_swap_lookup image i :
  g_cells (cvt_swap image) !! i = swap_rb <$> g_cells image !! i.
Proof. unfold cvt_swap, grid_map. cbn [g_cells]. apply list_lookup_fmap. Qed.

(** C7, amended. With the opacity 0 every pixel of the output is within 1
    of the pixel of the 8-bit input image (it is equal to it), under every
    mask and for every list of segments. With the opacity 1 and a
    brightness factor of 1.0, painting a main_wall segment leaves the
    target colour exactly on every pixel under its mask, in the working
    image of the loop and in the image the compositor returns (there in
    the channel order of the input); the effective opacity of other wall
    types is not the requested one. *)
Theorem paint_extreme_opacities :
  (forall image walls color main_only i p q,
     uint8_image image ->
     g_cells image !! i = Some p ->
     g_cells (apply_smart_paint image walls color 0 main_only) !! i = Some q ->
     within_one p q) /\
  (forall result_image wall_segment color i p,
     wall_type wall_segment = main_wall ->
     shape (mask wall_segment) = shape result_image ->
     uint8_pixel color ->
     (brightness_factor result_image wall_segment == 1)%Q ->
     g_cells (mask wall_segment) !! i = Some true ->
     g_cells result_image !! i = Some p ->
     g_cells (paint_step color 1 result_image wall_segment) !! i = Some color) /\
  (forall image wall_segment color main_only i p,
     wall_type wall_segment = main_wall ->
     shape (mask wall_segment) = shape image ->
     uint8_pixel color ->
     (brightness_factor (cvt_swap image) wall_segment == 1)%Q ->
     g_cells (mask wall_segment) !! i = Some true ->
     g_cells image !! i = Some p ->
     g_cells (apply_smart_paint image [wall_segment] color 1 main_only) !! i
       = Some (swap_rb color)).
Proof.
  split; [|split].
  - intros image walls color main_only i p q Himg Hp Hq.
    rewrite apply_smart_paint_transparent in Hq by exact Himg.
    rewrite Hp in Hq. injection Hq as <-.
    destruct p as [[p0 p1] p2]. cbn. rewrite !Z.sub_diag. cbn. lia.
  - apply paint_step_opaque.
  - intros image wall_segment color main_only i p Hty Hshape Hcolor Hbf Hm Hp.
    rewrite apply_smart_paint_single, cvt_swap_lookup by exact Hty.
    rewrite (paint_step_opaque (cvt_swap image) wall_segment color i (swap_rb p));
      try assumption; [reflexivity|].
    now rewrite cvt_swap_lookup, Hp.
Qed.

(** C8. A painted pixel is the blend of the original pixel and the
    brightness-adjusted colour at the effective opacity: the requested
    opacity for a main_wall, 0.9 times it for an accent_wall and 0.6 times
    it for the remaining retainable type, background. *)
Theorem effective_opacity_by_type color opacity result_image wall_segment i p :
  shape (mask wall_segment) = shape result_image ->
  g_cells (mask wall_segment) !! i = Some true ->
  g_cells result_image !! i = Some p ->
  exists alpha,
    g_cells (paint_step color opacity result_image wall_segment) !! i
      = Some (blend_pixel
                (adjust_color color (brightness_factor result_image wall_segment))
                alpha p) /\
    (wall_type wall_segment = main_wall -> alpha = opacity) /\
    (wall_type wall_segment = accent_wall -> alpha = (opacity * (9 # 10))%Q) /\
    (wall_type wall_segment = background -> alpha = (opacity * (6 # 10))%Q).
Proof.
  intros Hshape Hm Hp.
  exists (wall_opacity (wall_type wall_segment) opacity). split.
  - rewrite paint_step_eq by eauto using mask_sum_pos.
    cbn [g_cells]. now apply masked_map_lookup.
  - repeat split; intros ->; reflexivity.
Qed.

(** A segment labelled [rejected], which detection never retains, would be
    painted at the requested opacity. *)
Lemma rejected_opacity_unscaled opacity : wall_opacity rejected opacity = opacity.
Proof. reflexivity. Qed.

End Compositor.

(** C7, as stated, fails: on the grey pixel the brightness factor is 1.0,
    yet painting the accent wall red with the opacity 1 blends at 0.9 and
    leaves (242, 12, 12), stored as BGR (12, 12, 242), not the target
    colour. *)
Lemma accent_wall_not_opaque :
  (brightness_factor (H := grey_external) (cvt_swap grey_image) grey_accent_wall == 1)%Q /\
  g_cells (mask grey_accent_wall) !! 0%nat = Some true /\
  g_cells (apply_smart_paint (H := grey_external) grey_image [grey_accent_wall]
             (255, 0, 0) 1 false) !! 0%nat = Some (12, 12, 242) /\
  (12, 12, 242) <> swap_rb (255, 0, 0).
Proof.
  split; [vm_compute; reflexivity|].
  split; [reflexivity|].
  split; [vm_compute; reflexivity | discriminate].
Qed.

(** The grey pixel painted red: unchanged at the opacity 0, red at the
    opacity 1 when the segment is a main wall. *)
Lemma paint_extreme_opacities_witness :
  within_one (128, 128, 128) (128, 128, 128) /\
  g_cells (paint_step (H := grey_external) (255, 0, 0) 1 grey_image grey_main_wall)
    !! 0%nat = Some (255, 0, 0).
Proof.
  destruct (@paint_extreme_opacities grey_external) as (Hzero & Hone & _).
  split.
  - apply (Hzero grey_image [grey_accent_wall] (255, 0, 0) false 0%nat).
    + repeat constructor; cbn; lia.
    + reflexivity.
    + vm_compute. reflexivity.
  - apply (Hone grey_image grey_main_wall (255, 0, 0) 0%nat (128, 128, 128)).
    + reflexivity.
    + reflexivity.
    + cbn. unfold uint8. lia.
    + vm_compute. reflexivity.
    + reflexivity.
    + reflexivity.
Defined.

(** The accent wall on the grey pixel is blended at 0.9 times the requested
    opacity. *)
Lemma effective_opacity_by_type_witness :
  exists alpha,
    g_cells (paint_step (H := grey_external) (255, 0, 0) 1 grey_image grey_accent_wall)
      !! 0%nat
    = Some (blend_pixel
              (adjust_color (255, 0, 0)
                 (brightness_factor (H := grey_external) grey_image grey_accent_wall))
              alpha (128, 128, 128)) /\
    alpha = (1 * (9 # 10))%Q.
Proof.
  destruct (effective_opacity_by_type (H := grey_external) (255, 0, 0) 1
              grey_image grey_accent_wall 0%nat (128, 128, 128)
              eq_refl eq_refl eq_refl) as (alpha & Hpix & _ & Hacc & _).
  exists alpha. split; [exact Hpix | now apply Hacc].
Defined.

(** ** Request handlers *)

Lemma filter_main_wall_nil (walls : list WallSegment) :
  Forall (fun w => wall_type w <> main_wall) walls ->
  filter (fun w => wall_type w = main_wall) walls = [].
Proof.
  induction 1 as [|w walls Hw _ IH]; [reflexivity|].
  rewrite filter_cons. destruct (decide _); [contradiction | exact IH].
Qed.

Lemma py_getitem_nat {A} (l : list A) i : 0 <= i -> py_getitem l i = l !! Z.to_nat i.
Proof.
  intros Hi. unfold py_getitem. apply Z.leb_le in Hi. now rewrite Hi.
Qed.

(** Below [-len(l)] the subscript raises [IndexError]. *)
Lemma py_getitem_below {A} (l : list A) i :
  i < - Z.of_nat (length l) -> py_getitem l i = None.
Proof.
  intros Hi. unfold py_getitem.
  destruct (0 <=? i) eqn:E0; [apply Z.leb_le in E0; lia|].
  destruct (- Z.of_nat (length l) <=? i) eqn:E1; [apply Z.leb_le in E1; lia|].
  reflexivity.
Qed.

(** On indices that are not negative the comprehension keeps, in request
    order, the walls at the indices below the length and drops the others. *)
Lemma select_walls_nonneg (walls : list WallSegment) (ids : list Z) :
  Forall (fun i => 0 <= i) ids ->
  select_walls walls ids = Some (omap (fun i => walls !! Z.to_nat i) ids).
Proof.
  induction 1 as [|i ids Hi _ IH]; [reflexivity|].
  cbn [select_walls]. rewrite IH, py_getitem_nat by exact Hi.
  destruct (i <? Z.of_nat (length walls)) eqn:E.
  - apply Z.ltb_lt in E.
    destruct (lookup_lt_is_Some_2 walls (Z.to_nat i) ltac:(lia)) as [w Hw].
    cbn. rewrite Hw. reflexivity.
  - apply Z.ltb_ge in E. cbn.
    rewrite (lookup_ge_None_2 walls (Z.to_nat i)) by lia. reflexivity.
Qed.

Section HandlerFacts.
Context `{External}.

(** With no main wall among them, "main walls only" paints nothing. *)
Lemma apply_smart_paint_no_main image walls color opacity :
  Forall (fun w => wall_type w <> main_wall) walls ->
  apply_smart_paint image walls color opacity true = image.
Proof.
  intros Hwalls. unfold apply_smart_paint.
  destruct walls as [|w walls]; [reflexivity|].
  cbv zeta. rewrite filter_main_wall_nil by exact Hwalls.
  apply cvt_swap_involutive.
Qed.

(** A paint request whose fingerprint is cached. *)
Lemma paint_instant_cached st d h entry :
  visualizer st = true -> pd_image_hash d = Some h -> h <> EmptyString ->
  mask_cache st !! h = Some entry ->
  paint_instant st (Some d) =
  match walls_to_paint (wall_segments entry) (pd_wall_ids d) with
  | None => Failure 500 "Painting failed"
  | Some [] => Failure 400 "No valid walls to paint"
  | Some walls =>
      PaintOk (apply_smart_paint (original_image entry) walls
                 (parse_color (pd_color d)) (pd_opacity d) (pd_mainWallsOnly d))
              (length walls)
  end.
Proof.
  intros Hv Hh Hne Hentry. unfold paint_instant, cache_lookup.
  rewrite Hv, Hh. cbn [negb].
  destruct (decide (h = EmptyString)) as [|_]; [contradiction|].
  rewrite Hentry. reflexivity.
Qed.

(** A paint request whose fingerprint is not cached is refused. *)
Lemma paint_instant_miss st d h :
  visualizer st = true -> pd_image_hash d = Some h -> mask_cache st !! h = None ->
  paint_instant st (Some d)
  = Failure 400 "Image not found in cache. Please detect walls first.".
Proof.
  intros Hv Hh Hmiss. unfold paint_instant, cache_lookup.
  rewrite Hv, Hh. cbn [negb].
  destruct (decide (h = EmptyString)); [reflexivity|]. now rewrite Hmiss.
Qed.

Lemma visualize_masks_miss st h :
  visualizer st = true -> mask_cache st !! h = None ->
  visualize_masks st (Some h) = Failure 400 "Image not found in cache".
Proof.
  intros Hv Hmiss. unfold visualize_masks, cache_lookup.
  rewrite Hv. cbn [negb].
  destruct (decide (h = EmptyString)); [reflexivity|]. now rewrite Hmiss.
Qed.

(** C3, amended. When "main walls only" is requested and no segment given
    to the compositor is a main_wall, the compositor returns the image
    unpainted, and a paint request that selects at least one cached segment
    then succeeds with the original image. A paint request whose index
    subset selects no cached segment is refused with the error
    "No valid walls to paint" (status 400). *)
Theorem paint_without_match st d h entry :
  visualizer st = true -> pd_image_hash d = Some h -> h <> EmptyString ->
  mask_cache st !! h = Some entry ->
  (forall image walls color opacity,
     Forall (fun w => wall_type w <> main_wall) walls ->
     apply_smart_paint image walls color opacity true = image) /\
  (forall walls,
     walls_to_paint (wall_segments entry) (pd_wall_ids d) = Some walls ->
     walls <> [] -> pd_mainWallsOnly d = true ->
     Forall (fun w => wall_type w <> main_wall) walls ->
     paint_instant st (Some d) = PaintOk (original_image entry) (length walls)) /\
  (walls_to_paint (wall_segments entry) (pd_wall_ids d) = Some [] ->
   paint_instant st (Some d) = Failure 400 "No valid walls to paint").
Proof.
  intros Hv Hh Hne Hentry.
  split; [apply apply_smart_paint_no_main|].
  rewrite (paint_instant_cached st d h entry Hv Hh Hne Hentry). split.
  - intros walls -> Hwalls -> Hno.
    destruct walls as [|w walls]; [contradiction|].
    now rewrite apply_smart_paint_no_main.
  - now intros ->.
Qed.

(** C9, amended. For a paint request on a cached entry with at least one
    segment, an empty index subset selects all cached segments. In a
    subset of indices that are not negative, every index at or above the
    number of cached segments is dropped without an exception; when at
    least one index remains, the walls at the remaining indices are given
    to the compositor in request order, and when none remains the request
    is refused with "No valid walls to paint" (status 400). *)
Theorem paint_index_subset st d h entry :
  visualizer st = true -> pd_image_hash d = Some h -> h <> EmptyString ->
  mask_cache st !! h = Some entry ->
  (pd_wall_ids d = [] -> wall_segments entry <> [] ->
   paint_instant st (Some d)
   = PaintOk (apply_smart_paint (original_image entry) (wall_segments entry)
                (parse_color (pd_color d)) (pd_opacity d) (pd_mainWallsOnly d))
             (length (wall_segments entry))) /\
  (pd_wall_ids d <> [] -> Forall (fun i => 0 <= i) (pd_wall_ids d) ->
   let walls := omap (fun i => wall_segments entry !! Z.to_nat i) (pd_wall_ids d) in
   walls_to_paint (wall_segments entry) (pd_wall_ids d) = Some walls /\
   (walls <> [] ->
    paint_instant st (Some d)
    = PaintOk (apply_smart_paint (original_image entry) walls
                 (parse_color (pd_color d)) (pd_opacity d) (pd_mainWallsOnly d))
              (length walls)) /\
   (walls = [] ->
    paint_instant st (Some d) = Failure 400 "No valid walls to paint")).
Proof.
  intros Hv Hh Hne Hentry.
  rewrite (paint_instant_cached st d h entry Hv Hh Hne Hentry). split.
  - intros -> Hsegs. cbn [walls_to_paint].
    now destruct (wall_segments entry).
  - intros Hids Hnonneg walls.
    assert (Hsel : walls_to_paint (wall_segments entry) (pd_wall_ids d) = Some walls).
    { unfold walls_to_paint. destruct (pd_wall_ids d); [contradiction|].
      now apply select_walls_nonneg. }
    rewrite Hsel. split; [reflexivity|]. split.
    + intros Hw. now destruct walls.
    + now intros ->.
Qed.

End HandlerFacts.

(** C3, as stated, fails: on the server that caches one wall, the subset
    [5] selects no segment and the request is answered with an error. *)
Lemma paint_empty_selection_refused :
  walls_to_paint (wall_segments grey_entry) [5] = Some [] /\
  paint_instant (H := grey_external) grey_server (Some (paint_request [5] 1 false))
  = Failure 400 "No valid walls to paint".
Proof. split; vm_compute; reflexivity. Qed.

(** "Main walls only" on the cached accent wall returns the grey image; the
    subset [5] is refused. *)
Lemma paint_without_match_witness :
  paint_instant (H := grey_external) grey_server (Some (paint_request [0] 1 true))
  = PaintOk grey_image 1 /\
  paint_instant (H := grey_external) grey_server (Some (paint_request [5] 1 true))
  = Failure 400 "No valid walls to paint".
Proof.
  assert (Hne : "grey" <> EmptyString) by discriminate.
  assert (Hhit : mask_cache grey_server !! "grey" = Some grey_entry)
    by (vm_compute; reflexivity).
  split.
  - destruct (paint_without_match (H := grey_external) grey_server
                (paint_request [0] 1 true) "grey" grey_entry
                eq_refl eq_refl Hne Hhit) as (_ & Hmain & _).
    apply (Hmain [grey_accent_wall]).
    + reflexivity.
    + discriminate.
    + reflexivity.
    + repeat constructor. discriminate.
  - destruct (paint_without_match (H := grey_external) grey_server
                (paint_request [5] 1 true) "grey" grey_entry
                eq_refl eq_refl Hne Hhit) as (_ & _ & Hnone).
    apply Hnone. reflexivity.
Defined.

(** C9, as stated, fails: index 1 is out of range for the single cached
    wall; the request with the subset [1] is answered with an error, while
    the same request with the empty subset succeeds. *)
Lemma paint_out_of_range_refused :
  paint_instant (H := grey_external) grey_server (Some (paint_request [1] 0 false))
  = Failure 400 "No valid walls to paint" /\
  paint_instant (H := grey_external) grey_server (Some (paint_request [] 0 false))
  = PaintOk grey_image 1.
Proof. split; vm_compute; reflexivity. Qed.

(** An index below the negated length makes the subscript raise; the
    handler answers with status 500. *)
Lemma paint_negative_index_raises :
  select_walls (wall_segments grey_entry) [0; -5] = None /\
  paint_instant (H := grey_external) grey_server (Some (paint_request [0; -5] 0 false))
  = Failure 500 "Painting failed".
Proof. split; vm_compute; reflexivity. Qed.

(** The subset [0; 7] on the single cached wall paints wall 0. *)
Lemma paint_index_subset_witness :
  paint_instant (H := grey_external) grey_server (Some (paint_request [0; 7] 0 false))
  = PaintOk (apply_smart_paint (H := grey_external) grey_image [grey_accent_wall]
               (parse_color (H := grey_external) "#FF0000") 0 false) 1.
Proof.
  assert (Hne : "grey" <> EmptyString) by discriminate.
  assert (Hhit : mask_cache grey_server !! "grey" = Some grey_entry)
    by (vm_compute; reflexivity).
  destruct (paint_index_subset (H := grey_external) grey_server
              (paint_request [0; 7] 0 false) "grey" grey_entry
              eq_refl eq_refl Hne Hhit) as (_ & Hsub).
  destruct Hsub as (_ & Hpaint & _).
  - discriminate.
  - repeat constructor; lia.
  - apply Hpaint. discriminate.
Defined.

(** ** Segmentation cache *)

(** C4. A lookup of a fingerprint right after a store under it returns the
    stored entry; after a clear every lookup is absent; the count a clear
    reports is the number of entries the cache held before it. *)
Theorem cache_round_trip (st : AppState) (K : string) (E : CacheEntry) :
  cache_lookup K (cache_store K E st) = Some E /\
  (forall K', cache_lookup K' (snd (clear_cache st)) = None) /\
  fst (clear_cache st) = ClearOk (length (map_to_list (mask_cache st))) /\
  fst (clear_cache st) = ClearOk (size (dom (mask_cache st))).
Proof.
  unfold cache_lookup, cache_store, clear_cache. cbn.
  split; [apply lookup_insert_eq|].
  split; [intros K'; apply lookup_empty|].
  split; [now rewrite length_map_to_list|]. now rewrite size_dom.
Qed.

(** A store leaves the entries under other fingerprints as they are, and
    replaces the entry under its own. *)
Lemma cache_store_other st K K' E :
  K' <> K -> cache_lookup K' (cache_store K E st) = cache_lookup K' st.
Proof.
  intros Hne. unfold cache_lookup, cache_store. cbn.
  now apply lookup_insert_ne.
Qed.

Lemma cache_store_overwrite st K E E' :
  cache_store K E' (cache_store K E st) = cache_store K E' st.
Proof.
  unfold cache_store. cbn. f_equal. apply insert_insert_eq.
Qed.

(** A store under a fresh fingerprint adds one to the count of a clear, a
    store under a cached one leaves it. *)
Lemma cache_store_count st K E :
  fst (clear_cache (cache_store K E st)) =
  ClearOk (match cache_lookup K st with
           | Some _ => size (mask_cache st)
           | None => S (size (mask_cache st))
           end).
Proof.
  unfold clear_cache, cache_store, cache_lookup. cbn. f_equal.
  destruct (mask_cache st !! K) as [E0|] eqn:EK.
  - rewrite <- (insert_id (mask_cache st) K E0 EK) at 2.
    rewrite <- !size_dom, !dom_insert_L. reflexivity.
  - now apply map_size_insert_None.
Qed.

Example clear_grey_server :
  clear_cache grey_server = (ClearOk 1, fresh_server).
Proof. vm_compute. reflexivity. Qed.

Section DetectionHandler.
Context `{External}.

(** The first detection of an image with at least one wall stores its
    entry; the next request for the same upload is answered from it. *)
Lemma detect_then_cached st image_data image walls scale_factor info :
  visualizer st = true ->
  let h := get_image_hash (clean_image_data image_data) in
  mask_cache st !! h = None ->
  cv_imdecode (clean_image_data image_data) = Some (Some image) ->
  detect_walls_improved image = Some (walls, scale_factor) -> walls <> [] ->
  wall_info_from 0 image
    (resize_masks_to_original walls (shape image) scale_factor) = Some info ->
  let entry := {| wall_segments :=
                    resize_masks_to_original walls (shape image) scale_factor;
                  original_image := image; wall_info := info;
                  image_size := (g_w image, g_h image) |} in
  detect_walls_only st (Some image_data)
  = (DetectOk (length info) info (g_w image, g_h image) h false,
     cache_store h entry st) /\
  detect_walls_only (cache_store h entry st) (Some image_data)
  = (DetectOk (length info) info (g_w image, g_h image) h true,
     cache_store h entry st).
Proof.
  intros Hv h Hmiss Hdec Hdet Hwalls Hinfo entry. split.
  - unfold detect_walls_only, cache_lookup. rewrite Hv. cbn [negb].
    fold h. rewrite Hmiss, Hdec, Hdet.
    destruct walls as [|w walls]; [contradiction|].
    now rewrite Hinfo.
  - subst h. unfold detect_walls_only, cache_lookup, cache_store.
    cbn [visualizer mask_cache]. rewrite Hv. cbn [negb]. cbv zeta.
    rewrite lookup_insert_eq. reflexivity.
Qed.

(** C10. A detection that retains no wall segment answers with success and
    an empty wall list and leaves the cache as it was: the fingerprint is
    still absent, so a paint or a visualize request that names it is
    refused as a cache miss (status 400). *)
Theorem empty_detection_not_cached st image_data image :
  visualizer st = true ->
  let h := get_image_hash (clean_image_data image_data) in
  mask_cache st !! h = None ->
  cv_imdecode (clean_image_data image_data) = Some (Some image) ->
  (exists scale_factor, detect_walls_improved image = Some ([], scale_factor)) ->
  let st' := snd (detect_walls_only st (Some image_data)) in
  fst (detect_walls_only st (Some image_data))
    = DetectOk 0 [] (g_w image, g_h image) h false /\
  st' = st /\
  cache_lookup h st' = None /\
  (forall d, pd_image_hash d = Some h ->
     paint_instant st' (Some d)
     = Failure 400 "Image not found in cache. Please detect walls first.") /\
  visualize_masks st' (Some h) = Failure 400 "Image not found in cache".
Proof.
  intros Hv h Hmiss Hdec [sf Hdet] st'.
  assert (Hrun : detect_walls_only st (Some image_data)
                 = (DetectOk 0 [] (g_w image, g_h image) h false, st)).
  { unfold detect_walls_only, cache_lookup. rewrite Hv. cbn [negb].
    fold h. now rewrite Hmiss, Hdec, Hdet. }
  subst st'. rewrite Hrun. cbn [fst snd].
  split; [reflexivity|]. split; [reflexivity|]. split; [exact Hmiss|]. split.
  - intros d Hd. now apply paint_instant_miss with h.
  - now apply visualize_masks_miss.
Qed.

End DetectionHandler.

(** An upload for which the mask generator proposes nothing, on the fresh
    server. *)
Lemma empty_detection_not_cached_witness :
  fst (detect_walls_only (H := grey_external) fresh_server (Some "upload"))
    = DetectOk 0 [] (1%nat, 1%nat) "upload" false /\
  visualize_masks (H := grey_external)
    (snd (detect_walls_only (H := grey_external) fresh_server (Some "upload")))
    (Some "upload")
  = Failure 400 "Image not found in cache".
Proof.
  destruct (empty_detection_not_cached (H := grey_external) fresh_server
              "upload" grey_image eq_refl)
    as (Hresp & _ & _ & _ & Hvis).
  - vm_compute. reflexivity.
  - reflexivity.
  - exists 1%Q. vm_compute. reflexivity.
  - split; [exact Hresp | exact Hvis].
Defined.

(** A run of the handlers: the first upload is detected and cached under its
    fingerprint, a paint request for wall 0 at the opacity 1 then turns the
    two left columns into the colour scaled by the brightness factor 100/128. *)
Example detect_then_paint_wall_image :
  let run := detect_walls_only (H := wall_external) fresh_server
               (Some "data:image/png;base64,AAAA") in
  fst run
  = DetectOk 1
      [ {| wi_id := 0; wi_area := 8; wi_confidence := (9 # 10) * (95 # 100);
           wi_wall_type := main_wall; wi_bbox := [0; 0; 2; 4];
           wi_area_percentage := (8 # 16) * 100 |} ]
      (4%nat, 4%nat) "AAAA" false /\
  paint_instant (H := wall_external) (snd run)
    (Some {| pd_image_hash := Some "AAAA"; pd_wall_ids := [0];
             pd_color := "#FF0000"; pd_opacity := 1; pd_mainWallsOnly := true |})
  = PaintOk (Grid 4 4 (concat (repeat [(0, 0, 199); (0, 0, 199);
                                       (100, 100, 100); (100, 100, 100)] 4))) 1.
Proof. split; vm_compute; reflexivity. Qed.

(** * Further properties of the code *)

(** ** Classifier *)

(** X4. A box classified main_wall or accent_wall covers more than 12% of
    the image, has an aspect ratio below 4 and is higher than 30% of the
    image height. *)
Theorem wall_needs_large_box m (b : BBox) (img_h img_w : nat) t score :
  classify_wall_advanced m b (img_h, img_w) = Some (t, score) ->
  t = main_wall \/ t = accent_wall ->
  (12 # 100 < area_ratio b (img_h, img_w))%Q /\
  (aspect_ratio b < 4)%Q /\
  (inject_Z (Z.of_nat img_h) * (3 # 10) < inject_Z (snd b))%Q.
Proof.
  destruct (Nat.eq_dec img_h 0%nat) as [Eh|Eh];
    [rewrite classify_empty_image by auto; discriminate|].
  destruct (Nat.eq_dec img_w 0%nat) as [Ew|Ew];
    [rewrite classify_empty_image by auto; discriminate|].
  rewrite classify_first_match by lia.
  unfold classifier_rules, first_match.
  destruct (main_wall_test b (img_h, img_w)) eqn:E1.
  - intros _ _. unfold main_wall_test in E1. cbn [fst] in E1.
    rewrite !andb_true_iff, !Qlt_bool_iff in E1.
    destruct E1 as [[[Har Hasp] _] Hh]. repeat split.
    + eapply Qlt_trans; [|exact Har]. reflexivity.
    + eapply Qlt_trans; [exact Hasp|]. reflexivity.
    + eapply Qle_lt_trans; [|exact Hh].
      apply Qmult_le_l; [|discriminate].
      change 0%Q with (inject_Z 0). rewrite <- Zlt_Qlt. lia.
  - destruct (accent_wall_test b (img_h, img_w)) eqn:E2.
    + intros _ _. unfold accent_wall_test in E2. cbn [fst] in E2.
      rewrite !andb_true_iff, !Qlt_bool_iff in E2.
      destruct E2 as [[[[Har Hasp] _] _] Hh]. auto.
    + destruct (rejected_test _ _); intros [= <- <-] [?|?]; discriminate.
Qed.

Lemma wall_needs_large_box_witness :
  (12 # 100 < area_ratio left_box (4%nat, 4%nat))%Q /\
  (aspect_ratio left_box < 4)%Q.
Proof.
  destruct (wall_needs_large_box (left_columns_mask 4 4 2) left_box
              4 4 main_wall (95 # 100)) as (Har & Hasp & _).
  - vm_compute. reflexivity.
  - now left.
  - split; assumption.
Defined.

(** X5. On an image of positive size a box is rejected (with score 0)
    exactly when it covers less than 8% of the image. *)
Theorem rejected_iff_small m (b : BBox) (img_h img_w : nat) :
  (0 < img_h)%nat -> (0 < img_w)%nat ->
  classify_wall_advanced m b (img_h, img_w) = Some (rejected, 0%Q)
  <-> (area_ratio b (img_h, img_w) < 8 # 100)%Q.
Proof.
  intros Hh Hw. rewrite classify_first_match by assumption.
  unfold classifier_rules, first_match.
  assert (Hbig : forall q, Qlt_bool q (area_ratio b (img_h, img_w)) = true ->
            (12 # 100 <= q)%Q -> ~ (area_ratio b (img_h, img_w) < 8 # 100)%Q).
  { intros q Hq Hle Hsmall. apply Qlt_bool_iff in Hq.
    apply (Qlt_irrefl (8 # 100)).
    eapply Qlt_trans; [|exact Hsmall].
    eapply Qlt_le_trans; [|eapply Qle_trans; [exact Hle|apply Qlt_le_weak, Hq]].
    reflexivity. }
  destruct (main_wall_test b (img_h, img_w)) eqn:E1.
  - split; [discriminate|]. intros Hsmall. exfalso.
    unfold main_wall_test in E1. rewrite !andb_true_iff in E1.
    destruct E1 as [[[Har _] _] _].
    apply (Hbig _ Har); [discriminate | exact Hsmall].
  - destruct (accent_wall_test b (img_h, img_w)) eqn:E2.
    + split; [discriminate|]. intros Hsmall. exfalso.
      unfold accent_wall_test in E2. rewrite !andb_true_iff in E2.
      destruct E2 as [[[[Har _] _] _] _].
      apply (Hbig _ Har); [discriminate | exact Hsmall].
    + unfold rejected_test. destruct (Qlt_bool _ _) eqn:E3.
      * split; [intros _; now apply Qlt_bool_iff | reflexivity].
      * split; [discriminate|]. intros Hsmall.
        apply Qlt_bool_iff in Hsmall. congruence.
Qed.

Lemma rejected_iff_small_witness :
  classify_wall_advanced (left_columns_mask 4 4 1) tiny_box (4%nat, 4%nat)
  = Some (rejected, 0%Q).
Proof.
  apply (rejected_iff_small (left_columns_mask 4 4 1) tiny_box 4 4); try lia.
  reflexivity.
Defined.

(** ** Normalizer and detection *)

Section DetectionFacts.
Context `{External}.

(** X1. When preprocessing returns, the scale factor lies in (0, 1]; it is
    1.0 exactly when the longer side of the image is at most [max_size],
    and then the enhanced image is returned without a resize. *)
Theorem preprocess_scale_factor image max_size enhanced processed scale_factor :
  0 < max_size ->
  cv_enhance image = Some enhanced ->
  preprocess_image image max_size = Some (processed, scale_factor) ->
  let longer := Z.max (Z.of_nat (g_h enhanced)) (Z.of_nat (g_w enhanced)) in
  (0 < scale_factor)%Q /\ (scale_factor <= 1)%Q /\
  ((scale_factor == 1)%Q <-> longer <= max_size) /\
  (longer <= max_size -> processed = enhanced).
Proof.
  intros Hmax Henh. unfold preprocess_image. rewrite Henh.
  cbn [mbind option_bind shape]. intros Hrun. cbv zeta.
  set (longer := Z.max (Z.of_nat (g_h enhanced)) (Z.of_nat (g_w enhanced))) in *.
  destruct (max_size <? longer) eqn:E.
  - apply Z.ltb_lt in E.
    destruct (cv_resize_lanczos _ _ _) as [resized|]; [|discriminate].
    cbn in Hrun. injection Hrun as <- <-.
    assert (Hpos : (0 < inject_Z longer)%Q).
    { change 0%Q with (inject_Z 0). rewrite <- Zlt_Qlt. lia. }
    assert (Hlt : (inject_Z max_size / inject_Z longer < 1)%Q).
    { apply Qlt_shift_div_r; [exact Hpos|]. rewrite Qmult_1_l.
      now rewrite <- Zlt_Qlt. }
    split; [|split; [|split]].
    + apply Qlt_shift_div_l; [exact Hpos|]. rewrite Qmult_0_l.
      change 0%Q with (inject_Z 0). rewrite <- Zlt_Qlt. lia.
    + now apply Qlt_le_weak.
    + split; [|lia]. intros Heq. rewrite Heq in Hlt.
      now apply Qlt_irrefl in Hlt.
    + lia.
  - apply Z.ltb_ge in E. injection Hrun as <- <-.
    split; [reflexivity|]. split; [discriminate|].
    split; [|reflexivity]. split; [intros _; exact E | intros _; reflexivity].
Qed.

Lemma length_omap_le {A B} (f : A -> option B) (l : list A) :
  (length (omap f l) <= length l)%nat.
Proof.
  induction l as [|a l IH]; cbn; [lia|]. destruct (f a); cbn; lia.
Qed.

(** X3. Detection returns at most one segment per proposal, and every
    segment it returns is built from one of the proposals: the mask of the
    proposal, its pixel count as area, the first four entries of its box,
    and the stability score times the classification score as confidence. *)
Theorem detection_from_proposals image processed scale_factor masks walls sf :
  preprocess_image image 1024 = Some (processed, scale_factor) ->
  sam_generate processed = Some masks ->
  detect_walls_improved image = Some (walls, sf) ->
  sf = scale_factor /\
  (length walls <= length masks)%nat /\
  (forall seg, seg ∈ walls ->
     exists md b t score,
       md ∈ masks /\ proposal_bbox md = Some b /\
       classify_wall_advanced (segmentation md) b (shape processed) = Some (t, score) /\
       mask seg = segmentation md /\ area seg = mask_sum (segmentation md) /\
       bbox seg = b /\ wall_type seg = t /\
       confidence seg = (stability_score md * score)%Q).
Proof.
  intros Hpre Hgen Hdet.
  rewrite (detect_walls_improved_eq _ _ _ _ Hpre Hgen) in Hdet.
  injection Hdet as <- <-. split; [reflexivity|]. split.
  - rewrite <- (Permutation_length (sort_walls_perm _)). apply length_omap_le.
  - intros seg Hseg. rewrite <- sort_walls_perm in Hseg.
    apply list_elem_of_omap in Hseg as (md & Hmd & Hsome).
    unfold proposal_segment in Hsome.
    destruct (proposal_bbox md) as [b|] eqn:Eb; [|discriminate]. cbn in Hsome.
    destruct (classify_wall_advanced _ _ _) as [[t score]|] eqn:Ec; [|discriminate].
    cbn in Hsome. destruct (Qle_bool _ _); [|discriminate].
    injection Hsome as <-. exists md, b, t, score. cbn.
    repeat split; auto.
Qed.

(** X2. When the mask generator raises, the handler still answers with
    success: zero walls, nothing cached. *)
Theorem generator_failure_reports_success st image_data image processed scale_factor :
  visualizer st = true ->
  let h := get_image_hash (clean_image_data image_data) in
  mask_cache st !! h = None ->
  cv_imdecode (clean_image_data image_data) = Some (Some image) ->
  preprocess_image image 1024 = Some (processed, scale_factor) ->
  sam_generate processed = None ->
  detect_walls_only st (Some image_data)
  = (DetectOk 0 [] (g_w image, g_h image) h false, st).
Proof.
  intros Hv h Hmiss Hdec Hpre Hgen.
  unfold detect_walls_only, cache_lookup. rewrite Hv. cbn [negb].
  fold h. rewrite Hmiss, Hdec. unfold detect_walls_improved.
  rewrite Hpre. cbn. now rewrite Hgen.
Qed.

End DetectionFacts.

Lemma preprocess_scale_factor_witness :
  (0 < inject_Z 2 / inject_Z 4)%Q /\ (inject_Z 2 / inject_Z 4 <= 1)%Q.
Proof.
  destruct (preprocess_scale_factor (H := grey_external) wide_image 2 wide_image
              (Grid 1 2 (repeat (100, 100, 100) 2))
              (inject_Z 2 / inject_Z 4)) as (Hpos & Hle & _).
  - lia.
  - reflexivity.
  - vm_compute. reflexivity.
  - split; assumption.
Defined.

Lemma detection_from_proposals_witness :
  (length [left_detected] <= length [stable_proposal])%nat.
Proof.
  destruct (detection_from_proposals (H := wall_external) wall_image wall_image 1
              [stable_proposal] [left_detected] 1) as (_ & Hlen & _).
  - vm_compute. reflexivity.
  - reflexivity.
  - vm_compute. reflexivity.
  - exact Hlen.
Defined.

Lemma generator_failure_reports_success_witness :
  detect_walls_only (H := failing_generator grey_image) fresh_server (Some "upload")
  = (DetectOk 0 [] (1%nat, 1%nat) "upload" false, fresh_server).
Proof.
  apply (generator_failure_reports_success (H := failing_generator grey_image)
           fresh_server "upload" grey_image grey_image 1).
  - reflexivity.
  - reflexivity.
  - reflexivity.
  - vm_compute. reflexivity.
  - reflexivity.
Defined.

(** ** Sorting and rescaling *)

Section RescalerFacts.
Context `{External}.

Lemma key_ge_not_lt x y :
  key_ge x y -> key_lt (sort_key x) (sort_key y) = false.
Proof.
  intros Hge. destruct (key_lt (sort_key x) (sort_key y)) eqn:E; [|reflexivity].
  exfalso. unfold key_lt in E. unfold key_ge, priority, weight in Hge.
  rewrite orb_true_iff, andb_true_iff, Z.ltb_lt, Z.eqb_eq, Qlt_bool_iff in E.
  destruct Hge as [Hlt | [Heq Hle]], E as [Hlt' | [Heq' Hlt']]; try lia.
  exact (Qlt_not_le _ _ Hlt' Hle).
Qed.

Lemma sort_walls_fixed l : StronglySorted key_ge l -> sort_walls l = l.
Proof.
  induction 1 as [|x l Hs IH Hx]; [reflexivity|].
  cbn [sort_walls foldr]. fold (sort_walls l). rewrite IH.
  destruct l as [|y l]; [reflexivity|].
  cbn [sort_insert]. rewrite key_ge_not_lt; [reflexivity|].
  now apply Forall_cons in Hx as [Hy _].
Qed.

(** X6. Sorting is idempotent and keeps the number of segments: a list
    that is already in sort order, such as the list detection returned, is
    left exactly as it is, so the wall indices do not move. *)
Theorem sort_walls_idempotent (l : list WallSegment) :
  sort_walls (sort_walls l) = sort_walls l /\
  length (sort_walls l) = length l.
Proof.
  split.
  - apply sort_walls_fixed, sort_walls_sorted.
  - symmetry. apply Permutation_length, sort_walls_perm.
Qed.

Lemma rescale_priority original_shape scale_factor src res :
  rescale original_shape scale_factor src = Some res -> priority res = priority src.
Proof.
  intros Hres. apply rescale_Some in Hres as (_ & _ & _ & _ & _ & Hty).
  unfold priority, sort_key. cbn. now rewrite Hty.
Qed.

Lemma omap_rescale_order original_shape scale_factor walls :
  StronglySorted key_ge walls ->
  StronglySorted (fun a b => priority b <= priority a)
    (omap (rescale original_shape scale_factor) walls).
Proof.
  induction 1 as [|x l Hs IH Hx]; cbn; [constructor|].
  destruct (rescale original_shape scale_factor x) as [x'|] eqn:Ex; [|exact IH].
  constructor; [exact IH|].
  apply Forall_forall. intros y' Hy'.
  apply list_elem_of_omap in Hy' as (y & Hy & Ey).
  rewrite Forall_forall in Hx. specialize (Hx y Hy).
  pose proof (rescale_priority _ _ _ _ Ex) as Hpx.
  pose proof (rescale_priority _ _ _ _ Ey) as Hpy.
  unfold key_ge in Hx. unfold priority, sort_key in *. cbn [fst] in *.
  destruct Hx as [Hlt | [Heq _]]; lia.
Qed.

(** X7. Rescaling a list that is in sort order keeps the walls grouped by
    type: after it no accent_wall stands before a main_wall, whatever the
    resized areas are. *)
Theorem rescaled_walls_type_order walls original_shape scale_factor i j a b :
  StronglySorted key_ge walls ->
  (i < j)%nat ->
  resize_masks_to_original walls original_shape scale_factor !! i = Some a ->
  resize_masks_to_original walls original_shape scale_factor !! j = Some b ->
  type_priority (wall_type b) <= type_priority (wall_type a).
Proof.
  intros Hs Hij Ha Hb. unfold resize_masks_to_original in Ha, Hb.
  destruct (Qeq_bool scale_factor 1).
  - pose proof (StronglySorted_lookup key_ge _ i j a b Hs Hij Ha Hb) as Hge.
    unfold key_ge, priority, sort_key in Hge. cbn [fst] in Hge.
    destruct Hge as [Hlt | [Heq _]]; lia.
  - rewrite resize_loop_eq in Ha, Hb. cbn [app] in Ha, Hb.
    exact (StronglySorted_lookup _ _ i j a b
             (omap_rescale_order original_shape scale_factor walls Hs) Hij Ha Hb).
Qed.

(** X8. The rescaler treats the segments one by one: rescaling a
    concatenation is the concatenation of the rescalings, so a segment that
    is dropped, or whose resize raises, does not affect the others. *)
Theorem resize_masks_app walls1 walls2 original_shape scale_factor :
  resize_masks_to_original (walls1 ++ walls2) original_shape scale_factor
  = resize_masks_to_original walls1 original_shape scale_factor
    ++ resize_masks_to_original walls2 original_shape scale_factor.
Proof.
  unfold resize_masks_to_original.
  destruct (Qeq_bool scale_factor 1); [reflexivity|].
  rewrite !resize_loop_eq. cbn [app]. apply omap_app.
Qed.

End RescalerFacts.

Lemma rescaled_walls_type_order_witness :
  type_priority main_wall <= type_priority main_wall.
Proof.
  apply (rescaled_walls_type_order (H := grey_external)
           [left_wall; grey_main_wall; vanishing_wall] (4%nat, 4%nat) (1 # 2)
           0%nat 1%nat
           {| mask := left_columns_mask 4 4 2; area := 8; bbox := (0, 0, 2, 4);
              confidence := 855 # 1000; wall_type := main_wall |}
           {| mask := Grid 4 4 (repeat true 16); area := 16; bbox := (0, 0, 2, 2);
              confidence := 855 # 1000; wall_type := main_wall |}).
  - change [left_wall; grey_main_wall; vanishing_wall]
      with (sort_walls (H := grey_external)
              [left_wall; grey_main_wall; vanishing_wall]).
    apply sort_walls_sorted.
  - lia.
  - vm_compute. reflexivity.
  - vm_compute. reflexivity.
Defined.

(** ** Paint compositor *)

Lemma masked_map_lookup_gen {A} (f : A -> A) m (l : list A) i :
  masked_map f m l !! i
  = match m !! i with
    | Some true => f <$> l !! i
    | _ => l !! i
    end.
Proof.
  revert l i. induction m as [|b m IH]; intros [|x l] [|i]; cbn;
    try reflexivity.
  - now destruct b.
  - now destruct (m !! i) as [[|]|].
  - now destruct b.
  - apply IH.
Qed.

Lemma masked_map_length {A} (f : A -> A) m (l : list A) :
  length (masked_map f m l) = length l.
Proof.
  revert l. induction m as [|b m IH]; intros [|x l]; cbn; try reflexivity.
  now rewrite IH.
Qed.

Section CompositorFacts.
Context `{External}.

(** The loop body, with its two guards spelled out. *)
Lemma paint_step_cases color opacity result_image w :
  paint_step color opacity result_image w
  = if decide (paintable (shape result_image) w) then
      Grid (g_h result_image) (g_w result_image)
        (masked_map
           (blend_pixel (adjust_color color (brightness_factor result_image w))
                        (wall_opacity (wall_type w) opacity))
           (g_cells (mask w)) (g_cells result_image))
    else result_image.
Proof.
  unfold paint_step, paintable.
  destruct (decide (shape (mask w) = shape result_image)) as [Hs|Hs].
  - destruct (mask_sum (mask w) =? 0) eqn:E.
    + apply Z.eqb_eq in E. destruct (decide _) as [[_ Hne]|_]; [contradiction|reflexivity].
    + apply Z.eqb_neq in E. destruct (decide _) as [_|Hn]; [|tauto].
      now rewrite bool_assign_select.
  - destruct (decide _) as [[Hs' _]|_]; [contradiction|reflexivity].
Qed.

Lemma paint_step_shape color opacity result_image w :
  shape (paint_step color opacity result_image w) = shape result_image.
Proof.
  rewrite paint_step_cases. now destruct (decide _).
Qed.

Lemma paint_step_length color opacity result_image w :
  length (g_cells (paint_step color opacity result_image w))
  = length (g_cells result_image).
Proof.
  rewrite paint_step_cases. destruct (decide _); [|reflexivity].
  cbn. apply masked_map_length.
Qed.

Lemma paint_step_outside color opacity result_image w i :
  g_cells (mask w) !! i <> Some true ->
  g_cells (paint_step color opacity result_image w) !! i = g_cells result_image !! i.
Proof.
  intros Hm. rewrite paint_step_cases. destruct (decide _); [|reflexivity].
  cbn [g_cells]. rewrite masked_map_lookup_gen.
  now destruct (g_cells (mask w) !! i) as [[|]|].
Qed.

Lemma paint_loop_shape color opacity walls result_image :
  shape (fold_left (paint_step color opacity) walls result_image)
  = shape result_image.
Proof.
  revert result_image. induction walls as [|w walls IH]; intros r; [reflexivity|].
  cbn [fold_left]. now rewrite IH, paint_step_shape.
Qed.

Lemma paint_loop_length color opacity walls result_image :
  length (g_cells (fold_left (paint_step color opacity) walls result_image))
  = length (g_cells result_image).
Proof.
  revert result_image. induction walls as [|w walls IH]; intros r; [reflexivity|].
  cbn [fold_left]. now rewrite IH, paint_step_length.
Qed.

Lemma paint_loop_outside color opacity walls result_image i :
  Forall (fun w => g_cells (mask w) !! i <> Some true) walls ->
  g_cells (fold_left (paint_step color opacity) walls result_image) !! i
  = g_cells result_image !! i.
Proof.
  intros Hw. revert result_image.
  induction Hw as [|w walls Hm _ IH]; intros r; [reflexivity|].
  cbn [fold_left]. now rewrite IH, paint_step_outside.
Qed.

(** The compositor is the loop over the filtered walls between the two
    channel swaps, also when a list is empty. *)
Lemma apply_smart_paint_loop image walls color opacity main_only :
  apply_smart_paint image walls color opacity main_only
  = cvt_swap (fold_left (paint_step color opacity)
                (main_filter main_only walls) (cvt_swap image)).
Proof.
  unfold apply_smart_paint, main_filter.
  destruct walls as [|w walls].
  - destruct main_only; cbn; now rewrite cvt_swap_involutive.
  - cbv zeta.
    match goal with
    | |- match ?selected with _ => _ end = _ => destruct selected
    end; reflexivity.
Qed.

Lemma main_filter_sub main_only walls w :
  w ∈ main_filter main_only walls -> w ∈ walls.
Proof.
  unfold main_filter. destruct main_only; [|auto].
  intros Hw. now apply list_elem_of_filter in Hw as [_ Hw].
Qed.

Lemma swap_rb_fmap_involutive (o : option Pixel) : swap_rb <$> (swap_rb <$> o) = o.
Proof. destruct o as [p|]; [|reflexivity]. cbn. now rewrite swap_rb_involutive. Qed.

Lemma apply_smart_paint_shape image walls color opacity main_only :
  shape (apply_smart_paint image walls color opacity main_only) = shape image /\
  length (g_cells (apply_smart_paint image walls color opacity main_only))
  = length (g_cells image).
Proof.
  rewrite apply_smart_paint_loop. split.
  - unfold cvt_swap at 1. unfold grid_map, shape. cbn [g_h g_w].
    pose proof (paint_loop_shape color opacity (main_filter main_only walls)
                  (cvt_swap image)) as Hs.
    unfold shape in Hs. cbn in Hs. exact Hs.
  - unfold cvt_swap at 1. unfold grid_map. cbn [g_cells].
    rewrite length_map, paint_loop_length.
    unfold cvt_swap, grid_map. cbn [g_cells]. apply length_map.
Qed.

(** X10. The compositor never changes the shape of the image or the
    number of its pixels, and a pixel that lies under the mask of none of
    the given segments comes out exactly as it went in. *)
Theorem paint_only_under_masks image walls color opacity main_only :
  let out := apply_smart_paint image walls color opacity main_only in
  shape out = shape image /\
  length (g_cells out) = length (g_cells image) /\
  (forall i, (forall w, w ∈ walls -> g_cells (mask w) !! i <> Some true) ->
     g_cells out !! i = g_cells image !! i).
Proof.
  cbv zeta.
  destruct (apply_smart_paint_shape image walls color opacity main_only)
    as [Hshape Hlen].
  split; [exact Hshape|]. split; [exact Hlen|].
  rewrite apply_smart_paint_loop.
  intros i Hout. rewrite cvt_swap_lookup, paint_loop_outside.
    + rewrite cvt_swap_lookup. apply swap_rb_fmap_involutive.
    + apply Forall_forall. intros w Hw. apply Hout.
      now apply main_filter_sub in Hw.
Qed.

Lemma paint_loop_paintable color opacity walls result_image :
  fold_left (paint_step color opacity) walls result_image
  = fold_left (paint_step color opacity)
      (filter (paintable (shape result_image)) walls) result_image.
Proof.
  revert result_image. induction walls as [|w walls IH]; intros r; [reflexivity|].
  rewrite filter_cons. cbn [fold_left].
  destruct (decide (paintable (shape r) w)) as [Hp|Hp].
  - cbn [fold_left]. rewrite IH, paint_step_shape. reflexivity.
  - rewrite paint_step_cases. destruct (decide _); [contradiction|]. apply IH.
Qed.

Lemma main_filter_filter main_only (P : WallSegment -> Prop)
    `{!forall w, Decision (P w)} walls :
  main_filter main_only (filter P walls) = filter P (main_filter main_only walls).
Proof.
  unfold main_filter. destruct main_only; [|reflexivity].
  induction walls as [|w walls IH]; [reflexivity|].
  rewrite !filter_cons.
  destruct (decide (P w)), (decide (wall_type w = main_wall));
    rewrite ?filter_cons; repeat (destruct (decide _); try contradiction);
    now rewrite IH.
Qed.

(** X11. Segments whose mask has another shape than the image, or no pixel
    set, are skipped without effect: the compositor returns the same image
    as for the list without them. *)
Theorem paint_skips_unpaintable image walls color opacity main_only :
  apply_smart_paint image walls color opacity main_only
  = apply_smart_paint image (filter (paintable (shape image)) walls)
      color opacity main_only.
Proof.
  rewrite !apply_smart_paint_loop. f_equal.
  rewrite main_filter_filter.
  rewrite paint_loop_paintable. reflexivity.
Qed.

(** X12. Painting in two calls, the second on the output of the first, is
    painting the concatenated list in one call. *)
Theorem paint_twice_is_paint_app image walls1 walls2 color opacity main_only :
  apply_smart_paint (apply_smart_paint image walls1 color opacity main_only)
    walls2 color opacity main_only
  = apply_smart_paint image (walls1 ++ walls2) color opacity main_only.
Proof.
  rewrite !apply_smart_paint_loop, cvt_swap_involutive. f_equal.
  rewrite <- fold_left_app. f_equal.
  unfold main_filter. destruct main_only; [|reflexivity].
  now rewrite filter_app.
Qed.

End CompositorFacts.

Lemma np_clip_range q lo hi :
  (lo <= hi)%Q -> (lo <= np_clip q lo hi)%Q /\ (np_clip q lo hi <= hi)%Q.
Proof.
  intros Hlh. unfold np_clip.
  destruct (Qlt_bool q lo) eqn:E1.
  - split; [apply Qle_refl | exact Hlh].
  - apply Qlt_bool_false_iff in E1. destruct (Qlt_bool hi q) eqn:E2.
    + split; [exact Hlh | apply Qle_refl].
    + apply Qlt_bool_false_iff in E2. now split.
Qed.

Lemma np_clip_le q lo hi : (lo <= q)%Q -> (np_clip q lo hi <= q)%Q.
Proof.
  intros Hlo. unfold np_clip.
  apply Qlt_bool_false_iff in Hlo. rewrite Hlo.
  destruct (Qlt_bool hi q) eqn:E; [|apply Qle_refl].
  apply Qlt_bool_iff in E. now apply Qlt_le_weak.
Qed.

Lemma convex_between (P A alpha : Q) :
  (0 <= alpha)%Q -> (alpha <= 1)%Q -> (P <= A)%Q ->
  (P <= P * (1 - alpha) + A * alpha)%Q /\ (P * (1 - alpha) + A * alpha <= A)%Q.
Proof.
  intros H0 H1 Hle.
  assert (Hd : (0 <= A - P)%Q).
  { apply Qle_minus_iff in Hle. exact Hle. }
  assert (Hc : (0 <= 1 - alpha)%Q).
  { apply Qle_minus_iff in H1. exact H1. }
  split.
  - apply Qle_minus_iff.
    assert (Hring : ((P * (1 - alpha) + A * alpha + - P) == (alpha * (A - P)))%Q) by ring.
    rewrite Hring; clear Hring.
    now apply Qmult_le_0_compat.
  - apply Qle_minus_iff.
    assert (Hring : ((A + - (P * (1 - alpha) + A * alpha)) == ((1 - alpha) * (A - P)))%Q) by ring.
    rewrite Hring; clear Hring.
    now apply Qmult_le_0_compat.
Qed.

Lemma convex_between_rev (P A alpha : Q) :
  (0 <= alpha)%Q -> (alpha <= 1)%Q -> (A <= P)%Q ->
  (A <= P * (1 - alpha) + A * alpha)%Q /\ (P * (1 - alpha) + A * alpha <= P)%Q.
Proof.
  intros H0 H1 Hle.
  assert (Hc : (0 <= 1 - alpha)%Q).
  { apply Qle_minus_iff in H1. exact H1. }
  assert (Hc1 : (1 - alpha <= 1)%Q).
  { apply Qle_minus_iff.
    assert (Hring : ((1 + - (1 - alpha)) == alpha)%Q) by ring.
    rewrite Hring; clear Hring. exact H0. }
  destruct (convex_between A P (1 - alpha) Hc Hc1 Hle) as [Ha Hb].
  assert (Hring : ((P * (1 - alpha) + A * alpha) == (A * (1 - (1 - alpha)) + P * (1 - alpha)))%Q) by ring.
    rewrite Hring; clear Hring.
  now split.
Qed.

(** For an opacity in [0, 1] the blend of an 8-bit channel with a colour
    channel in [0, 255] does not leave the 8 bits and lies between the two. *)
Lemma blend_channel_between (p : Z) (a alpha : Q) :
  uint8 p -> (0 <= a)%Q -> (a <= 255)%Q -> (0 <= alpha)%Q -> (alpha <= 1)%Q ->
  uint8 (blend_channel p a alpha) /\
  Z.min p (Qfloor a) <= blend_channel p a alpha <= Z.max p (Qfloor a).
Proof.
  intros [Hp0 Hp1] Ha0 Ha1 H0 H1.
  set (mix := (inject_Z p * (1 - alpha) + a * alpha)%Q).
  assert (Hbounds : Z.min p (Qfloor a) <= Qfloor mix <= Z.max p (Qfloor a)).
  { destruct (Qlt_le_dec a (inject_Z p)) as [Hlt|Hle].
    - apply Qlt_le_weak in Hlt.
      destruct (convex_between_rev (inject_Z p) a alpha H0 H1 Hlt) as [Hlo Hhi].
      apply Qfloor_resp_le in Hlo, Hhi. rewrite Qfloor_Z in Hhi.
      fold mix in Hlo, Hhi. lia.
    - destruct (convex_between (inject_Z p) a alpha H0 H1 Hle) as [Hlo Hhi].
      apply Qfloor_resp_le in Hlo, Hhi. rewrite Qfloor_Z in Hlo.
      fold mix in Hlo, Hhi. lia. }
  assert (Hfa : 0 <= Qfloor a <= 255).
  { apply Qfloor_resp_le in Ha0, Ha1.
    change (Qfloor 0) with 0 in Ha0. change (Qfloor 255) with 255 in Ha1. lia. }
  assert (Hmix0 : (0 <= mix)%Q).
  { destruct (Qlt_le_dec a (inject_Z p)) as [Hlt|Hle].
    - apply Qlt_le_weak in Hlt.
      destruct (convex_between_rev (inject_Z p) a alpha H0 H1 Hlt) as [Hlo _].
      now apply Qle_trans with a.
    - destruct (convex_between (inject_Z p) a alpha H0 H1 Hle) as [Hlo _].
      apply Qle_trans with (inject_Z p); [|exact Hlo].
      change 0%Q with (inject_Z 0). now rewrite <- Zle_Qle. }
  assert (Heq : blend_channel p a alpha = Qfloor mix).
  { unfold blend_channel, to_uint8, py_int. fold mix.
    apply Qle_bool_iff in Hmix0. rewrite Hmix0.
    apply Z.mod_small. lia. }
  rewrite Heq. unfold uint8. lia.
Qed.

Lemma wall_opacity_unit t opacity :
  (0 <= opacity)%Q -> (opacity <= 1)%Q ->
  (0 <= wall_opacity t opacity)%Q /\ (wall_opacity t opacity <= 1)%Q.
Proof.
  intros H0 H1. destruct t; cbn; try (now split).
  - split; [apply Qmult_le_0_compat; [exact H0|discriminate]|].
    apply Qle_trans with (1 * (9 # 10))%Q; [|discriminate].
    apply Qmult_le_compat_r; [exact H1|discriminate].
  - split; [apply Qmult_le_0_compat; [exact H0|discriminate]|].
    apply Qle_trans with (1 * (6 # 10))%Q; [|discriminate].
    apply Qmult_le_compat_r; [exact H1|discriminate].
Qed.

Lemma adjust_color_range color factor :
  let '(a0, a1, a2) := adjust_color color factor in
  ((0 <= a0 /\ a0 <= 255) /\ (0 <= a1 /\ a1 <= 255) /\ (0 <= a2 /\ a2 <= 255))%Q.
Proof.
  destruct color as [[r g] b]. cbn.
  repeat split; apply np_clip_range; discriminate.
Qed.

Section BlendFacts.
Context `{External}.

(** X13. For a requested opacity in [0, 1] and an 8-bit working image, a
    painted pixel stays an 8-bit pixel without wrap-around, and each of its
    channels lies between the original channel and the adjusted colour
    channel rounded down, up to one unit for the truncation of the blend. *)
Theorem painted_pixel_between color opacity result_image w i p :
  (0 <= opacity)%Q -> (opacity <= 1)%Q ->
  uint8_image result_image ->
  shape (mask w) = shape result_image ->
  g_cells (mask w) !! i = Some true ->
  g_cells result_image !! i = Some p ->
  exists q,
    g_cells (paint_step color opacity result_image w) !! i = Some q /\
    uint8_pixel q /\
    channels_between p
      (adjusted_floor (adjust_color color (brightness_factor result_image w))) q.
Proof.
  intros H0 H1 Himg Hshape Hm Hp.
  rewrite paint_step_eq by eauto using mask_sum_pos.
  cbn [g_cells]. rewrite (masked_map_lookup _ _ _ _ _ Hm Hp).
  eexists. split; [reflexivity|].
  assert (Hpix : uint8_pixel p).
  { unfold uint8_image in Himg. rewrite Forall_forall in Himg. apply Himg.
    eapply list_elem_of_lookup_2; eauto. }
  destruct (wall_opacity_unit (wall_type w) opacity H0 H1) as [Ha0 Ha1].
  pose proof (adjust_color_range color (brightness_factor result_image w)) as Hadj.
  destruct (adjust_color _ _) as [[a0 a1] a2].
  destruct p as [[p0 p1] p2]. destruct Hpix as (Hp0 & Hp1 & Hp2).
  destruct Hadj as ((? & ?) & (? & ?) & (? & ?)). cbn.
  destruct (blend_channel_between p0 a0 _ Hp0 ltac:(assumption) ltac:(assumption) Ha0 Ha1).
  destruct (blend_channel_between p1 a1 _ Hp1 ltac:(assumption) ltac:(assumption) Ha0 Ha1).
  destruct (blend_channel_between p2 a2 _ Hp2 ltac:(assumption) ltac:(assumption) Ha0 Ha1).
  unfold channel_between, uint8 in *. repeat split; lia.
Qed.

(** X14. The brightness factor always lies in [0.7, 1.3]; each channel of
    the adjusted colour of an 8-bit colour is between 0.7 and 1.3 times the
    requested channel and never above 255. *)
Theorem brightness_adjustment_range result_image w color :
  uint8_pixel color ->
  let factor := brightness_factor result_image w in
  (7 # 10 <= factor)%Q /\ (factor <= 13 # 10)%Q /\
  let '(a0, a1, a2) := adjust_color color factor in
  let '(r, g, b) := color in
  adjusted_within r a0 /\ adjusted_within g a1 /\ adjusted_within b a2.
Proof.
  intros Hcolor factor.
  assert (Hf : (7 # 10 <= factor)%Q /\ (factor <= 13 # 10)%Q).
  { subst factor. unfold brightness_factor. apply np_clip_range. discriminate. }
  destruct Hf as [Hf0 Hf1]. split; [exact Hf0|]. split; [exact Hf1|].
  assert (Hch : forall c, uint8 c ->
            adjusted_within c (np_clip (inject_Z c * factor) 0 255)).
  { intros c [Hc0 Hc1].
    assert (Hc : (0 <= inject_Z c)%Q)
      by (change 0%Q with (inject_Z 0); now rewrite <- Zle_Qle).
    assert (Hc255 : (inject_Z c <= 255)%Q)
      by (change 255%Q with (inject_Z 255); rewrite <- Zle_Qle; lia).
    assert (Hlo : ((7 # 10) * inject_Z c <= inject_Z c * factor)%Q).
    { rewrite (Qmult_comm (inject_Z c) factor). now apply Qmult_le_compat_r. }
    assert (Hhi : (inject_Z c * factor <= (13 # 10) * inject_Z c)%Q).
    { rewrite (Qmult_comm (inject_Z c) factor). now apply Qmult_le_compat_r. }
    assert (H0 : (0 <= inject_Z c * factor)%Q).
    { apply Qmult_le_0_compat; [exact Hc|].
      apply Qle_trans with (7 # 10); [discriminate | exact Hf0]. }
    unfold adjusted_within. split; [|split].
    - unfold np_clip. apply Qlt_bool_false_iff in H0. rewrite H0.
      destruct (Qlt_bool 255 _) eqn:E; [|exact Hlo].
      apply Qle_trans with (inject_Z c); [|exact Hc255].
      rewrite <- (Qmult_1_l (inject_Z c)) at 2.
      apply Qmult_le_compat_r; [discriminate | exact Hc].
    - eapply Qle_trans; [apply np_clip_le; exact H0 | exact Hhi].
    - apply np_clip_range. discriminate. }
  destruct color as [[r g] b]. destruct Hcolor as (Hr & Hg & Hb). cbn.
  auto.
Qed.

End BlendFacts.

Lemma painted_pixel_between_witness :
  exists q,
    g_cells (paint_step (H := grey_external) (255, 0, 0) (1 # 2) grey_image
               grey_accent_wall) !! 0%nat = Some q /\
    uint8_pixel q.
Proof.
  destruct (painted_pixel_between (H := grey_external) (255, 0, 0) (1 # 2)
              grey_image grey_accent_wall 0%nat (128, 128, 128))
    as (q & Hq & Hu & _).
  - discriminate.
  - discriminate.
  - repeat constructor; cbn; lia.
  - reflexivity.
  - reflexivity.
  - reflexivity.
  - exists q. split; assumption.
Defined.

Lemma brightness_adjustment_range_witness :
  (7 # 10 <= brightness_factor (H := grey_external) grey_image grey_accent_wall)%Q.
Proof.
  destruct (brightness_adjustment_range (H := grey_external) grey_image
              grey_accent_wall (255, 0, 0)) as (Hlo & _).
  - cbn. unfold uint8. lia.
  - exact Hlo.
Defined.

(** ** Request handlers *)

Section HandlerInvariants.
Context `{External}.

(** What a detection request does to the state: nothing, or one store
    under the fingerprint of the upload, which was absent. *)
Lemma detect_state_cases st data :
  (snd (detect_walls_only st data) = st /\
   ((exists s m, fst (detect_walls_only st data) = Failure s m) \/
    (exists n info size h, fst (detect_walls_only st data) = DetectOk n info size h true) \/
    (exists size h, fst (detect_walls_only st data) = DetectOk 0 [] size h false)))
  \/
  (exists image_data image walls scale_factor info,
     data = Some image_data /\ visualizer st = true /\
     mask_cache st !! get_image_hash (clean_image_data image_data) = None /\
     detect_walls_improved image = Some (walls, scale_factor) /\ walls <> [] /\
     wall_info_from 0 image
       (resize_masks_to_original walls (shape image) scale_factor) = Some info /\
     detect_walls_only st data
     = (DetectOk (length info) info (g_w image, g_h image)
          (get_image_hash (clean_image_data image_data)) false,
        cache_store (get_image_hash (clean_image_data image_data))
          {| wall_segments :=
               resize_masks_to_original walls (shape image) scale_factor;
             original_image := image; wall_info := info;
             image_size := (g_w image, g_h image) |} st)).
Proof.
  unfold detect_walls_only, cache_lookup.
  destruct (visualizer st) eqn:Hv; cbn [negb]; [|left; split; eauto].
  destruct data as [image_data|]; [|left; split; eauto].
  cbv zeta.
  destruct (mask_cache st !! _) as [cached|] eqn:Hc;
    [left; split; [reflexivity|right; left; eauto 10]|].
  destruct (cv_imdecode _) as [[image|]|] eqn:Hd; try (left; split; eauto; fail).
  destruct (detect_walls_improved image) as [[[|w walls] sf]|] eqn:Hdet;
    try (left; split; [reflexivity|eauto 10]; fail).
  destruct (wall_info_from 0 image _) as [info|] eqn:Hinfo;
    [|left; split; eauto].
  right. exists image_data, image, (w :: walls), sf, info.
  repeat split; auto; discriminate.
Qed.

(** Where an entry of the state after a detection request comes from. *)
Lemma detect_cache_cases st data k e :
  mask_cache (snd (detect_walls_only st data)) !! k = Some e ->
  mask_cache st !! k = Some e \/
  (exists image walls scale_factor info,
     detect_walls_improved image = Some (walls, scale_factor) /\
     wall_info_from 0 image
       (resize_masks_to_original walls (shape image) scale_factor) = Some info /\
     e = {| wall_segments :=
              resize_masks_to_original walls (shape image) scale_factor;
            original_image := image; wall_info := info;
            image_size := (g_w image, g_h image) |}).
Proof.
  destruct (detect_state_cases st data)
    as [[-> _] | (image_data & image & walls & sf & info & _ & _ & _ & Hdet & _ & Hinfo & ->)];
    [auto|].
  cbn [snd cache_store mask_cache]. rewrite lookup_insert.
  destruct (decide _) as [_|_]; [|auto].
  intros [= <-]. right. eauto 10.
Qed.

Lemma wall_info_from_aligned i image segments infos :
  wall_info_from i image segments = Some infos ->
  length infos = length segments /\
  forall j seg, segments !! j = Some seg ->
    exists info, infos !! j = Some info /\ info_describes (i + j) seg info.
Proof.
  revert i infos. induction segments as [|segment rest IH]; intros i infos.
  - intros [= <-]. split; [reflexivity|]. intros j seg Hj. discriminate.
  - cbn [wall_info_from]. destruct (py_truediv _ _) as [ratio|]; [|discriminate].
    cbn [mbind option_bind].
    destruct (bbox segment) as [[[x y] w] h] eqn:Eb.
    destruct (wall_info_from (S i) image rest) as [infos'|] eqn:Erest; [|discriminate].
    cbn [mbind option_bind]. intros [= <-].
    destruct (IH _ _ Erest) as [Hlen Hall]. split; [cbn; now rewrite Hlen|].
    intros [|j] seg Hj.
    + injection Hj as <-. eexists. split; [reflexivity|].
      unfold info_describes. rewrite Eb. cbn. rewrite Nat.add_0_r. auto.
    + destruct (Hall j seg Hj) as (info & Hinfo & Hdesc).
      exists info. split; [exact Hinfo|].
      now replace (i + S j)%nat with (S i + j)%nat by lia.
Qed.

(** X15. In every state the server can reach, the summaries and the
    segments of each cache entry have the same length and are
    index-aligned: summary [i] carries the id [i] and the area, confidence,
    type and box of segment [i]. *)
Theorem cache_entries_aligned st k e :
  reachable st -> mask_cache st !! k = Some e -> entry_aligned e.
Proof.
  intros Hreach. revert k e.
  induction Hreach as [v | st data _ IH | st _ _]; intros k e Hk.
  - cbn in Hk. now rewrite lookup_empty in Hk.
  - apply detect_cache_cases in Hk
      as [Hk | (image & walls & sf & info & _ & Hinfo & ->)]; [eauto|].
    destruct (wall_info_from_aligned _ _ _ _ Hinfo) as [Hlen Hall].
    split; [exact Hlen | exact Hall].
  - cbn in Hk. now rewrite lookup_empty in Hk.
Qed.

Lemma proposal_segment_sound s md seg :
  proposal_segment s md = Some seg ->
  is_wall seg /\ area seg = mask_sum (mask seg).
Proof.
  unfold proposal_segment.
  destruct (proposal_bbox md) as [b|]; [|discriminate]. cbn.
  destruct (classify_wall_advanced _ _ _) as [[t score]|] eqn:Ec; [|discriminate].
  cbn. destruct (Qle_bool _ _) eqn:E; [|discriminate].
  intros [= <-]. split; [|reflexivity]. unfold is_wall. cbn.
  apply (score_threshold t score (classify_cases _ _ _ _ _ Ec)), E.
Qed.

Lemma detect_walls_improved_sound image walls scale_factor :
  detect_walls_improved image = Some (walls, scale_factor) ->
  Forall (fun seg => is_wall seg /\ area seg = mask_sum (mask seg)) walls.
Proof.
  unfold detect_walls_improved.
  destruct (preprocess_image _ _) as [[processed sf]|]; [|discriminate]. cbn.
  destruct (sam_generate processed) as [masks|]; intros [= <- <-]; [|constructor].
  rewrite <- sort_walls_perm, detect_loop_eq. cbn [app].
  apply Forall_forall. intros seg Hseg.
  apply list_elem_of_omap in Hseg as (md & _ & Hsome).
  now apply proposal_segment_sound in Hsome.
Qed.

Lemma resize_masks_priority_sorted walls original_shape scale_factor :
  StronglySorted key_ge walls ->
  StronglySorted (fun a b => priority b <= priority a)
    (resize_masks_to_original walls original_shape scale_factor).
Proof.
  intros Hs. unfold resize_masks_to_original.
  destruct (Qeq_bool scale_factor 1).
  - induction Hs as [|x l _ IH Hx]; constructor; [exact IH|].
    eapply Forall_impl; [exact Hx|]. intros y [Hlt | [Heq _]]; lia.
  - rewrite resize_loop_eq. cbn [app]. now apply omap_rescale_order.
Qed.

Lemma resize_masks_sound walls original_shape scale_factor :
  Forall (fun seg => is_wall seg /\ area seg = mask_sum (mask seg)) walls ->
  Forall (fun seg => is_wall seg /\ area seg = mask_sum (mask seg))
    (resize_masks_to_original walls original_shape scale_factor).
Proof.
  intros Hw. unfold resize_masks_to_original.
  destruct (Qeq_bool scale_factor 1); [exact Hw|].
  rewrite resize_loop_eq. cbn [app].
  apply Forall_forall. intros res Hres.
  apply list_elem_of_omap in Hres as (src & Hsrc & Hsome).
  apply rescale_Some in Hsome as (_ & Harea & _ & _ & _ & Hty).
  rewrite Forall_forall in Hw. destruct (Hw src Hsrc) as [Hwall _].
  split; [|exact Harea]. unfold is_wall in *. now rewrite Hty.
Qed.

(** X16. In every state the server can reach, each cached segment is a
    main_wall or an accent_wall whose area is the pixel count of its mask,
    no accent_wall stands before a main_wall in an entry, and the recorded
    image size is the size of the stored image. *)
Theorem cache_entries_sound st k e :
  reachable st -> mask_cache st !! k = Some e -> entry_sound e.
Proof.
  intros Hreach. revert k e.
  induction Hreach as [v | st data _ IH | st _ _]; intros k e Hk.
  - cbn in Hk. now rewrite lookup_empty in Hk.
  - apply detect_cache_cases in Hk
      as [Hk | (image & walls & sf & info & Hdet & _ & ->)]; [eauto|].
    split; [|split]; cbn.
    + apply resize_masks_sound. eapply detect_walls_improved_sound, Hdet.
    + apply resize_masks_priority_sorted.
      eapply detect_walls_improved_sorted, Hdet.
    + reflexivity.
  - cbn in Hk. now rewrite lookup_empty in Hk.
Qed.

(** X17. A detection request keeps the model flag and every entry the
    cache already holds; it adds at most one entry, and when it answers
    with a failure the state is exactly as before. *)
Theorem detect_keeps_entries st data :
  let st' := snd (detect_walls_only st data) in
  visualizer st' = visualizer st /\
  (forall k e, mask_cache st !! k = Some e -> mask_cache st' !! k = Some e) /\
  (size (mask_cache st') <= S (size (mask_cache st)))%nat /\
  (forall s m, fst (detect_walls_only st data) = Failure s m -> st' = st).
Proof.
  cbv zeta.
  destruct (detect_state_cases st data)
    as [[-> _] | (image_data & image & walls & sf & info & _ & _ & Hmiss & _ & _ & _ & ->)].
  - repeat split; auto.
  - cbn [fst snd cache_store visualizer mask_cache]. repeat split.
    + intros k e Hk. rewrite lookup_insert_ne; [exact Hk|].
      intros <-. congruence.
    + now rewrite map_size_insert_None.
    + discriminate.
Qed.

(** X18. After a detection request that was answered with at least one
    wall and not from the cache, the same request is answered from the
    cache with the same walls, size and fingerprint, and leaves the state
    as it is. *)
Theorem detect_repeat_from_cache st data n info size h :
  fst (detect_walls_only st data) = DetectOk n info size h false ->
  n <> 0%nat ->
  detect_walls_only (snd (detect_walls_only st data)) data
  = (DetectOk n info size h true, snd (detect_walls_only st data)).
Proof.
  intros Hfirst Hn.
  destruct (detect_state_cases st data)
    as [[_ Hans] | (image_data & image & walls & sf & info' & -> & Hv & _ & _ & _ & _ & Hrun)].
  - exfalso. rewrite Hfirst in Hans.
    destruct Hans as [(s & m & Hans) | [(n' & i' & s' & h' & Hans) | (s' & h' & Hans)]];
      try discriminate.
    injection Hans as -> _. contradiction.
  - rewrite Hrun in Hfirst |- *. cbn [fst snd] in *.
    injection Hfirst as <- <- <- <-.
    unfold detect_walls_only, cache_lookup, cache_store.
    cbn [visualizer mask_cache]. rewrite Hv. cbn [negb]. cbv zeta.
    rewrite lookup_insert_eq. reflexivity.
Qed.

End HandlerInvariants.

Lemma wall_server_reachable : reachable (H := wall_external) wall_server.
Proof. apply reach_detect. apply (reach_start true). Qed.

Lemma cache_entries_aligned_witness :
  exists e, mask_cache wall_server !! "AAAA" = Some e /\ entry_aligned e.
Proof.
  eexists. split; [vm_compute; reflexivity|].
  apply (cache_entries_aligned (H := wall_external) wall_server "AAAA").
  - exact wall_server_reachable.
  - vm_compute. reflexivity.
Defined.

Lemma cache_entries_sound_witness :
  exists e, mask_cache wall_server !! "AAAA" = Some e /\
            entry_sound (H := wall_external) e.
Proof.
  eexists. split; [vm_compute; reflexivity|].
  apply (cache_entries_sound (H := wall_external) wall_server "AAAA").
  - exact wall_server_reachable.
  - vm_compute. reflexivity.
Defined.

Section PaintHandlerFacts.
Context `{External}.

Lemma length_select_walls walls ids selected :
  select_walls walls ids = Some selected -> (length selected <= length ids)%nat.
Proof.
  revert selected. induction ids as [|i ids IH]; intros selected.
  - intros [= <-]. reflexivity.
  - cbn [select_walls]. destruct (i <? _).
    + destruct (py_getitem walls i) as [w|]; [|discriminate]. cbn.
      destruct (select_walls walls ids) as [ws|]; [|discriminate]. cbn.
      intros [= <-]. cbn. specialize (IH ws eq_refl). lia.
    + intros Hsel. specialize (IH _ Hsel). cbn. lia.
Qed.

(** X19. A paint request is answered with success only when the model is
    loaded and the request names a non-empty fingerprint that is cached;
    the image it returns has the shape and the pixel count of the cached
    original, and the reported number of walls is at least 1: the number
    of cached segments for an empty index subset, at most the number of
    indices otherwise. *)
Theorem paint_success_means st data img n :
  paint_instant st data = PaintOk img n ->
  exists d h e,
    data = Some d /\ visualizer st = true /\
    pd_image_hash d = Some h /\ h <> EmptyString /\
    mask_cache st !! h = Some e /\
    shape img = shape (original_image e) /\
    length (g_cells img) = length (g_cells (original_image e)) /\
    (1 <= n)%nat /\
    (pd_wall_ids d = [] -> n = length (wall_segments e)) /\
    (pd_wall_ids d <> [] -> (n <= length (pd_wall_ids d))%nat).
Proof.
  unfold paint_instant, cache_lookup.
  destruct (visualizer st) eqn:Hv; cbn [negb]; [|discriminate].
  destruct data as [d|]; [|discriminate].
  destruct (pd_image_hash d) as [h|] eqn:Hh; [|discriminate].
  destruct (decide (h = EmptyString)) as [|Hne]; [discriminate|].
  destruct (mask_cache st !! h) as [e|] eqn:He; [|discriminate].
  destruct (walls_to_paint _ _) as [[|w walls]|] eqn:Hsel; try discriminate.
  intros [= <- <-]. exists d, h, e.
  destruct (apply_smart_paint_shape (original_image e) (w :: walls)
              (parse_color (pd_color d)) (pd_opacity d) (pd_mainWallsOnly d))
    as [Hshape Hlen].
  repeat split; auto.
  - cbn. lia.
  - intros Hids. unfold walls_to_paint in Hsel. rewrite Hids in Hsel.
    injection Hsel as Hsel. now rewrite Hsel.
  - intros Hids. unfold walls_to_paint in Hsel.
    destruct (pd_wall_ids d) as [|i ids] eqn:Eids; [contradiction|].
    now apply length_select_walls in Hsel.
Qed.

End PaintHandlerFacts.

Lemma select_walls_below (walls : list WallSegment) (ids : list Z) :
  Exists (fun i => i < - Z.of_nat (length walls)) ids ->
  select_walls walls ids = None.
Proof.
  induction 1 as [i ids Hi | i ids _ IH]; cbn [select_walls].
  - replace (i <? Z.of_nat (length walls)) with true
      by (symmetry; apply Z.ltb_lt; lia).
    now rewrite py_getitem_below.
  - rewrite IH. destruct (i <? _); [|reflexivity].
    now destruct (py_getitem walls i).
Qed.

Lemma select_walls_from_end (walls : list WallSegment) (ids : list Z) :
  Forall (fun i => - Z.of_nat (length walls) <= i) ids ->
  select_walls walls ids
  = Some (omap (fun i => walls !! py_index (length walls) i) ids).
Proof.
  induction 1 as [|i ids Hi _ IH]; [reflexivity|].
  cbn [select_walls]. rewrite IH.
  assert (Hidx : py_index (length walls) i
                 = Z.to_nat (if i <? 0 then Z.of_nat (length walls) + i else i))
    by reflexivity.
  destruct (i <? Z.of_nat (length walls)) eqn:E.
  - apply Z.ltb_lt in E. unfold py_getitem.
    destruct (i <? 0) eqn:E0.
    + apply Z.ltb_lt in E0.
      replace (0 <=? i) with false by (symmetry; apply Z.leb_gt; lia).
      replace (- Z.of_nat (length walls) <=? i) with true
        by (symmetry; apply Z.leb_le; lia).
      destruct (lookup_lt_is_Some_2 walls
                  (Z.to_nat (Z.of_nat (length walls) + i)) ltac:(lia)) as [w Hw].
      cbn. rewrite Hidx, Hw. reflexivity.
    + apply Z.ltb_ge in E0.
      replace (0 <=? i) with true by (symmetry; apply Z.leb_le; lia).
      destruct (lookup_lt_is_Some_2 walls (Z.to_nat i) ltac:(lia)) as [w Hw].
      cbn. rewrite Hidx, Hw. reflexivity.
  - apply Z.ltb_ge in E.
    replace (i <? 0) with false in Hidx by (symmetry; apply Z.ltb_ge; lia).
    cbn. rewrite Hidx, (lookup_ge_None_2 walls (Z.to_nat i)) by lia. reflexivity.
Qed.

Section IndexFacts.
Context `{External}.

(** X20. When the index subset of a paint request on a cached entry
    contains an index below minus the number of cached segments, the
    subscript raises and the whole request is answered with status 500,
    whatever the other indices are. *)
Theorem paint_index_below_fails st d h e :
  visualizer st = true -> pd_image_hash d = Some h -> h <> EmptyString ->
  mask_cache st !! h = Some e ->
  Exists (fun i => i < - Z.of_nat (length (wall_segments e))) (pd_wall_ids d) ->
  paint_instant st (Some d) = Failure 500 "Painting failed".
Proof.
  intros Hv Hh Hne He Hbad.
  rewrite (paint_instant_cached st d h e Hv Hh Hne He).
  unfold walls_to_paint. destruct (pd_wall_ids d) as [|i ids] eqn:Eids.
  - inversion Hbad.
  - now rewrite select_walls_below.
Qed.

(** X21. In a paint request on a cached entry whose indices are all at
    least minus the number of cached segments, a negative index counts
    from the end of the segment list (-1 is the last wall) and an index at
    or above the number of segments is dropped; the selected walls are
    given to the compositor in request order. *)
Theorem paint_negative_index_from_end st d h e :
  visualizer st = true -> pd_image_hash d = Some h -> h <> EmptyString ->
  mask_cache st !! h = Some e ->
  pd_wall_ids d <> [] ->
  Forall (fun i => - Z.of_nat (length (wall_segments e)) <= i) (pd_wall_ids d) ->
  let walls :=
    omap (fun i => wall_segments e !! py_index (length (wall_segments e)) i)
         (pd_wall_ids d) in
  walls_to_paint (wall_segments e) (pd_wall_ids d) = Some walls /\
  (walls <> [] ->
   paint_instant st (Some d)
   = PaintOk (apply_smart_paint (original_image e) walls
                (parse_color (pd_color d)) (pd_opacity d) (pd_mainWallsOnly d))
             (length walls)).
Proof.
  intros Hv Hh Hne He Hids Hrange walls.
  assert (Hsel : walls_to_paint (wall_segments e) (pd_wall_ids d) = Some walls).
  { unfold walls_to_paint. destruct (pd_wall_ids d); [contradiction|].
    now apply select_walls_from_end. }
  split; [exact Hsel|]. intros Hw.
  rewrite (paint_instant_cached st d h e Hv Hh Hne He), Hsel.
  now destruct walls.
Qed.

(** X22. After a clear the cache is empty: the health check counts 0
    cached images, every paint and every visualize request is refused as a
    cache miss, and a second clear reports 0; the count the clear reports
    is the count of the health check before it. *)
Theorem after_clear st :
  let st' := snd (clear_cache st) in
  fst (clear_cache st) = ClearOk (snd (health_check st)) /\
  health_check st' = (visualizer st, 0%nat) /\
  fst (clear_cache st') = ClearOk 0 /\
  (visualizer st = true ->
   (forall d, paint_instant st' (Some d)
              = Failure 400 "Image not found in cache. Please detect walls first.") /\
   (forall h, visualize_masks st' h = Failure 400 "Image not found in cache")).
Proof.
  cbv zeta. unfold clear_cache, health_check. cbn [fst snd visualizer mask_cache].
  rewrite map_size_empty.
  split; [reflexivity|]. split; [reflexivity|]. split; [reflexivity|].
  intros Hv. split.
  - intros d. unfold paint_instant, cache_lookup. cbn [visualizer mask_cache].
    rewrite Hv. cbn [negb].
    destruct (pd_image_hash d) as [h|]; [|reflexivity].
    destruct (decide _); [reflexivity|]. now rewrite lookup_empty.
  - intros h. unfold visualize_masks, cache_lookup. cbn [visualizer mask_cache].
    rewrite Hv. cbn [negb].
    destruct h as [h|]; [|reflexivity].
    destruct (decide _); [reflexivity|]. now rewrite lookup_empty.
Qed.

End IndexFacts.

Lemma paint_index_below_fails_witness :
  paint_instant (H := grey_external) grey_server
    (Some (paint_request [0; -5] (1 # 2) false))
  = Failure 500 "Painting failed".
Proof.
  apply (paint_index_below_fails (H := grey_external) grey_server
           (paint_request [0; -5] (1 # 2) false) "grey" grey_entry).
  - reflexivity.
  - reflexivity.
  - discriminate.
  - vm_compute. reflexivity.
  - apply Exists_cons_tl, Exists_cons_hd. cbn. lia.
Defined.

Lemma paint_negative_index_from_end_witness :
  paint_instant (H := grey_external) grey_server
    (Some (paint_request [-1; 3] 0 false))
  = PaintOk (apply_smart_paint (H := grey_external) grey_image [grey_accent_wall]
               (parse_color (H := grey_external) "#FF0000") 0 false) 1.
Proof.
  destruct (paint_negative_index_from_end (H := grey_external) grey_server
              (paint_request [-1; 3] 0 false) "grey" grey_entry)
    as [_ Hpaint].
  - reflexivity.
  - reflexivity.
  - discriminate.
  - vm_compute. reflexivity.
  - discriminate.
  - repeat constructor; cbn; lia.
  - apply Hpaint. discriminate.
Defined.

Lemma paint_success_means_witness :
  exists d h e,
    Some (paint_request [0] 0 false) = Some d /\
    pd_image_hash d = Some h /\ mask_cache grey_server !! h = Some e.
Proof.
  destruct (paint_success_means (H := grey_external) grey_server
              (Some (paint_request [0] 0 false)) grey_image 1)
    as (d & h & e & Hd & _ & Hh & _ & He & _).
  - vm_compute. reflexivity.
  - exists d, h, e. auto.
Defined.

(** ** Mask visualizer *)

Section VisualizerFacts.
Context `{External}.

Lemma palette_lookup idx : exists color, colors !! (idx mod length colors)%nat = Some color.
Proof.
  apply lookup_lt_is_Some_2. apply Nat.mod_upper_bound. discriminate.
Qed.

(** One turn of the loop on a mask of the image's shape: no resize, a flat
    blend at one half under the mask. *)
Lemma visualize_step_match (vis : Image) idx w color :
  shape (mask w) = shape vis ->
  colors !! (idx mod length colors)%nat = Some color ->
  visualize_step (Some (vis, idx)) w
  = Some ((Grid (g_h vis) (g_w vis)
             (masked_map (blend_pixel (flat_color color) (5 # 10))
                (g_cells (mask w)) (g_cells vis)) : Image),
          S idx).
Proof.
  intros Hshape Hcolor. unfold visualize_step. cbn [mbind option_bind].
  rewrite Hcolor. cbn [mbind option_bind].
  destruct (decide (shape (mask w) = shape vis)) as [_|]; [|contradiction].
  cbn [mbind option_bind].
  destruct (decide (shape (mask w) = shape vis)) as [_|]; [|contradiction].
  now rewrite bool_assign_select.
Qed.

Lemma visualize_loop walls (vis : Image) idx :
  Forall (fun w => shape (mask w) = shape vis) walls ->
  exists vis',
    fold_left visualize_step walls (Some (vis, idx))
      = Some (vis', (idx + length walls)%nat) /\
    shape vis' = shape vis /\
    forall i, Forall (fun w => g_cells (mask w) !! i <> Some true) walls ->
      g_cells vis' !! i = g_cells vis !! i.
Proof.
  revert vis idx. induction walls as [|w walls IH]; intros vis idx Hall.
  - exists vis. rewrite Nat.add_0_r. auto.
  - apply Forall_cons in Hall as [Hw Hall].
    destruct (palette_lookup idx) as [color Hcolor].
    cbn [fold_left]. rewrite (visualize_step_match vis idx w color Hw Hcolor).
    set (vis1 := Grid (g_h vis) (g_w vis) _).
    destruct (IH vis1 (S idx)) as (vis' & Hfold & Hshape & Hout).
    { eapply Forall_impl; [exact Hall|]. intros w' Hw'. exact Hw'. }
    exists vis'. split; [|split].
    + rewrite Hfold. f_equal. f_equal. cbn. lia.
    + exact Hshape.
    + intros i Hi. apply Forall_cons in Hi as [Hiw Hi].
      rewrite (Hout i Hi). subst vis1. cbn [g_cells].
      rewrite masked_map_lookup_gen.
      now destruct (g_cells (mask w) !! i) as [[|]|].
Qed.

(** X23. When the masks of the first five segments have the shape of the
    image, the visualization raises nothing and returns an image of the
    same shape; only the first five segments are drawn: a pixel under none
    of their masks is unchanged, and a pixel under the mask of exactly one
    of them, the one at position [k], is the half-and-half blend with the
    palette colour [k]. *)
Theorem visualization_draws_first_five (image : Image) walls :
  Forall (fun w => shape (mask w) = shape image) (take 5 walls) ->
  exists out,
    create_mask_visualization image walls = Some out /\
    shape out = shape image /\
    (forall i,
       Forall (fun w => g_cells (mask w) !! i <> Some true) (take 5 walls) ->
       g_cells out !! i = g_cells image !! i) /\
    (forall l1 w l2 color i p,
       take 5 walls = l1 ++ w :: l2 ->
       colors !! length l1 = Some color ->
       Forall (fun w' => g_cells (mask w') !! i <> Some true) (l1 ++ l2) ->
       g_cells (mask w) !! i = Some true ->
       g_cells image !! i = Some p ->
       g_cells out !! i
       = Some (swap_rb (blend_pixel (flat_color color) (5 # 10) (swap_rb p)))).
Proof.
  intros Hall. unfold create_mask_visualization.
  destruct (visualize_loop (take 5 walls) (cvt_swap image) 0) as (vis & Hfold & Hshape & Hout);
    [exact Hall|].
  exists (cvt_swap vis). rewrite Hfold. split; [reflexivity|].
  split; [exact Hshape|]. split.
  - intros i Hi. rewrite cvt_swap_lookup, (Hout i Hi), cvt_swap_lookup.
    apply swap_rb_fmap_involutive.
  - intros l1 w l2 color i p Hsplit Hcolor Hothers Hw Hp.
    rewrite Hsplit in Hfold, Hall.
    apply Forall_app in Hall as [Hall1 Hall2].
    apply Forall_cons in Hall2 as [Hallw Hall2].
    apply Forall_app in Hothers as [Hout1 Hout2].
    destruct (visualize_loop l1 (cvt_swap image) 0 Hall1) as (v1 & Hf1 & Hs1 & Ho1).
    assert (Hlt : (length l1 < 5)%nat).
    { apply lookup_lt_Some in Hcolor. exact Hcolor. }
    assert (Hmod : colors !! ((0 + length l1) mod length colors)%nat = Some color).
    { cbn [length colors Nat.add]. now rewrite Nat.mod_small. }
    assert (Hallw1 : shape (mask w) = shape v1) by now rewrite Hs1.
    pose proof (visualize_step_match v1 (0 + length l1) w color Hallw1 Hmod) as Hstep.
    set (v2 := Grid (g_h v1) (g_w v1) _) in Hstep.
    destruct (visualize_loop l2 v2 (S (0 + length l1))) as (v3 & Hf3 & Hs3 & Ho3).
    { eapply Forall_impl; [exact Hall2|]. intros w' Hw'.
      rewrite Hw'. subst v2. unfold shape. cbn.
      unfold shape in Hs1. cbn in Hs1. now injection Hs1 as -> ->. }
    assert (Hall3 : fold_left visualize_step (l1 ++ w :: l2)
                      (Some (cvt_swap image, 0%nat))
                    = Some (v3, (S (0 + length l1) + length l2)%nat)).
    { rewrite fold_left_app. cbn [fold_left]. now rewrite Hf1, Hstep, Hf3. }
    pose proof (eq_trans (eq_sym Hall3) Hfold) as Heq.
    injection Heq as -> _.
    rewrite cvt_swap_lookup, (Ho3 i Hout2). subst v2. cbn [g_cells].
    rewrite (masked_map_lookup _ _ _ i (swap_rb p) Hw); [reflexivity|].
    now rewrite (Ho1 i Hout1), cvt_swap_lookup, Hp.
Qed.

End VisualizerFacts.

Lemma visualization_draws_first_five_witness :
  exists out,
    create_mask_visualization (H := wall_external) wall_image [left_detected]
      = Some out /\
    shape out = shape wall_image.
Proof.
  destruct (visualization_draws_first_five (H := wall_external) wall_image
              [left_detected]) as (out & Hout & Hshape & _).
  - repeat constructor.
  - exists out. split; assumption.
Defined.

(** ** Fingerprints *)

Lemma substring_all s : String.substring 0 (String.length s) s = s.
Proof. induction s as [|c s IH]; [reflexivity|]. cbn. now rewrite IH. Qed.

Section FingerprintFacts.
Context `{External}.

(** X24. An upload sent as a JPEG or PNG data URL and the same upload sent
    as its bare payload (which holds no ['base64,'] marker) are cleaned to
    the same text and so get the same fingerprint. *)
Theorem data_url_same_fingerprint (payload : string) :
  String.index 0 "base64," payload = None ->
  clean_image_data payload = payload /\
  clean_image_data (String.append "data:image/jpeg;base64," payload) = payload /\
  clean_image_data (String.append "data:image/png;base64," payload) = payload /\
  get_image_hash (clean_image_data (String.append "data:image/jpeg;base64," payload))
  = get_image_hash (clean_image_data payload).
Proof.
  intros Hnone.
  assert (H0 : clean_image_data payload = payload).
  { unfold clean_image_data. now rewrite Hnone. }
  assert (Hclean : forall (pre : string) (k : nat),
            String.index 0 "base64," (String.append pre payload) = Some k ->
            String.length (String.append pre payload)
              = (k + 7 + String.length payload)%nat ->
            (forall n, String.substring (k + 7) n (String.append pre payload)
                       = String.substring 0 n payload) ->
            clean_image_data (String.append pre payload) = payload).
  { intros pre k Hidx Hlen Hsub. unfold clean_image_data, split_second.
    rewrite Hidx. cbn [String.length]. rewrite Hlen, Hsub.
    replace (k + 7 + String.length payload - (k + 7))%nat
      with (String.length payload) by lia.
    now rewrite substring_all, Hnone. }
  assert (H1 : clean_image_data (String.append "data:image/jpeg;base64," payload)
               = payload).
  { apply (Hclean _ 16%nat);
      [now destruct payload | reflexivity | intros n; reflexivity]. }
  assert (H2 : clean_image_data (String.append "data:image/png;base64," payload)
               = payload).
  { apply (Hclean _ 15%nat);
      [now destruct payload | reflexivity | intros n; reflexivity]. }
  repeat split; try assumption. now rewrite H0, H1.
Qed.

End FingerprintFacts.

Lemma data_url_same_fingerprint_witness :
  clean_image_data "data:image/jpeg;base64,AAAA" = "AAAA".
Proof.
  apply (data_url_same_fingerprint (H := grey_external) "AAAA"). reflexivity.
Defined.

(** ** Visualize and detect handlers, colours and masks *)

Lemma bool_assign_length {A} m (l vals : list A) :
  length (bool_assign m l vals) = length l.
Proof.
  revert l vals. induction m as [|b m IH]; intros [|x l] vals; cbn;
    try reflexivity.
  destruct b; [destruct vals|]; cbn; now rewrite IH.
Qed.

Section VisualizeHandlerFacts.
Context `{External}.

Lemma visualize_step_shape (vis : Image) idx w (vis' : Image) idx' :
  visualize_step (Some (vis, idx)) w = Some (vis', idx') ->
  shape vis' = shape vis /\ length (g_cells vis') = length (g_cells vis).
Proof.
  unfold visualize_step. cbn [mbind option_bind].
  destruct (colors !! _) as [color|]; [|discriminate]. cbn [mbind option_bind].
  match goal with
  | |- context [if decide ?P then Some (mask w) else ?r] =>
      destruct (if decide P then Some (mask w) else r) as [mask_resized|]
  end; [|discriminate].
  cbn [mbind option_bind].
  destruct (decide _); [|discriminate].
  intros [= <- _]. split; [reflexivity|]. cbn. apply bool_assign_length.
Qed.

Lemma visualize_loop_None walls : fold_left visualize_step walls None = None.
Proof. induction walls as [|w walls IH]; [reflexivity|]. exact IH. Qed.

Lemma visualize_loop_shape walls (vis : Image) idx (vis' : Image) idx' :
  fold_left visualize_step walls (Some (vis, idx)) = Some (vis', idx') ->
  shape vis' = shape vis /\ length (g_cells vis') = length (g_cells vis).
Proof.
  revert vis idx. induction walls as [|w walls IH]; intros vis idx.
  - intros [= <- _]. auto.
  - cbn [fold_left].
    destruct (visualize_step (Some (vis, idx)) w) as [[vis1 idx1]|] eqn:E.
    + intros Hfold. destruct (visualize_step_shape _ _ _ _ _ E) as [Hs Hl].
      destruct (IH _ _ Hfold) as [Hs' Hl']. split; congruence.
    + now rewrite visualize_loop_None.
Qed.

(** X25. A visualize request is answered with success only when the model
    is loaded and the request names a non-empty cached fingerprint; the
    overlay has the shape and the pixel count of the cached original, and
    the reported number of walls is the number of all cached segments,
    also when more than five are cached. *)
Theorem visualize_success_means st h img n :
  visualize_masks st h = VisualizeOk img n ->
  exists k e,
    h = Some k /\ k <> EmptyString /\ visualizer st = true /\
    mask_cache st !! k = Some e /\
    n = length (wall_segments e) /\
    shape img = shape (original_image e) /\
    length (g_cells img) = length (g_cells (original_image e)).
Proof.
  unfold visualize_masks, cache_lookup.
  destruct (visualizer st) eqn:Hv; cbn [negb]; [|discriminate].
  destruct h as [k|]; [|discriminate].
  destruct (decide (k = EmptyString)) as [|Hne]; [discriminate|].
  destruct (mask_cache st !! k) as [e|] eqn:He; [|discriminate].
  destruct (create_mask_visualization _ _) as [vis|] eqn:Hvis; [|discriminate].
  intros [= <- <-]. exists k, e. repeat split; auto.
  - unfold create_mask_visualization in Hvis.
    destruct (fold_left _ _ _) as [[v m]|] eqn:Hfold; [|discriminate].
    injection Hvis as <-.
    apply visualize_loop_shape in Hfold as [Hs _]. exact Hs.
  - unfold create_mask_visualization in Hvis.
    destruct (fold_left _ _ _) as [[v m]|] eqn:Hfold; [|discriminate].
    injection Hvis as <-.
    apply visualize_loop_shape in Hfold as [_ Hl].
    unfold cvt_swap, grid_map in *. cbn [g_cells] in *.
    rewrite !length_map in *. exact Hl.
Qed.

End VisualizeHandlerFacts.

(** X9. Turning a boolean mask into the 0/255 intensity grid and
    thresholding it at 127 gives back the mask. *)
Theorem mask_intensity_round_trip (m : grid bool) :
  threshold_127 (to_uint8_mask m) = m.
Proof.
  destruct m as [h w cells]. unfold threshold_127, to_uint8_mask, grid_map. cbn.
  f_equal. rewrite map_map. rewrite <- (map_id cells) at 2.
  apply map_ext. now intros [|].
Qed.

Lemma visualize_success_means_witness :
  exists k e,
    Some "AAAA" = Some k /\ mask_cache wall_server !! k = Some e /\
    1%nat = length (wall_segments e).
Proof.
  assert (Hrun : exists img,
            visualize_masks (H := wall_external) wall_server (Some "AAAA")
            = VisualizeOk img 1).
  { eexists. vm_compute. reflexivity. }
  destruct Hrun as [img Hrun].
  destruct (visualize_success_means (H := wall_external) wall_server
              (Some "AAAA") img 1 Hrun) as (k & e & Hk & _ & _ & He & Hn & _).
  exists k, e. auto.
Defined.

Lemma detect_repeat_from_cache_witness :
  exists info,
    detect_walls_only (H := wall_external) wall_server
      (Some "data:image/png;base64,AAAA")
    = (DetectOk 1 info (4%nat, 4%nat) "AAAA" true, wall_server).
Proof.
  eexists.
  apply (detect_repeat_from_cache (H := wall_external) fresh_server
           (Some "data:image/png;base64,AAAA")).
  - vm_compute. reflexivity.
  - discriminate.
Defined.
